(** * The suggestion-stream session manager (week10 ChatService)

    A shallow embedding of the two [ChatService] classes of the week10
    client, [frontend/src/services/chatService.ts] and the [ChatService]
    of [mobile/src/services/api.ts], together with the part of the
    JavaScript run time they are written against: the [EventSource]
    objects they create, the [setTimeout] timers they arm, and the
    microtask queue on which the continuation of an [await] or the
    reaction of a [.then] runs. *)

From stdpp Require Import gmap strings list fin_maps.
From Stdlib Require Import NArith ZArith Lia.


Open Scope N_scope.

(** ** Values produced by [JSON.parse] *)

(** [JSON.parse] yields [null], a boolean, a number, a string, an array or
    an object.  Numbers are only ever tested for truthiness here, so an
    integer stands for them. *)
#[warnings="-register-all"]
Inductive JSValue : Type :=
| JNull
| JBool (b : bool)
| JNumber (z : Z)
| JString (s : string)
| JArray (elems : list JSValue)
| JObject (props : list (string * JSValue)).

(** [event.data] is a string; it is represented by what [JSON.parse] makes
    of it: a [SyntaxError], or the value it denotes. *)
Inductive Payload : Type :=
| Unparsable
| Parsed (v : JSValue).

(** Own properties of an object in the order of the text; [JSON.parse]
    lets a later duplicate key overwrite an earlier one. *)
Fixpoint assoc_last (k : string) (props : list (string * JSValue)) : option JSValue :=
  match props with
  | [] => None
  | (k', v) :: rest =>
      match assoc_last k rest with
      | Some v' => Some v'
      | None => if decide (k' = k) then Some v else None
      end
  end.

(** [v.k] for a value [v] other than [null]: [None] is [undefined]. *)
Definition get_prop (k : string) (v : JSValue) : option JSValue :=
  match v with
  | JObject props => assoc_last k props
  | _ => None
  end.

(** ToBoolean. *)
Definition truthy (v : option JSValue) : bool :=
  match v with
  | None => false
  | Some JNull => false
  | Some (JBool b) => b
  | Some (JNumber z) => negb (Z.eqb z 0)
  | Some (JString s) => negb (String.eqb s "")
  | Some (JArray _) => true
  | Some (JObject _) => true
  end.

(** ** The [SuggestionEvent] interface of [types/api.ts] *)

Definition is_string (v : JSValue) : bool :=
  match v with JString _ => true | _ => false end.

Definition is_boolean (v : JSValue) : bool :=
  match v with JBool _ => true | _ => false end.

Definition is_string_array (v : JSValue) : bool :=
  match v with JArray l => forallb is_string l | _ => false end.

(** [event: 'react_start' | 'react' | 'error' | 'suggest'] *)
Definition is_event_kind (v : JSValue) : bool :=
  match v with
  | JString s =>
      String.eqb s "react_start" || String.eqb s "react"
      || String.eqb s "error" || String.eqb s "suggest"
  | _ => false
  end.

(** [error?: { code: string; message: string }] *)
Definition is_error_record (v : JSValue) : bool :=
  match v with
  | JObject _ =>
      match get_prop "code" v, get_prop "message" v with
      | Some c, Some m => is_string c && is_string m
      | _, _ => false
      end
  | _ => false
  end.

Definition optional (p : JSValue → bool) (v : option JSValue) : bool :=
  match v with None => true | Some x => p x end.

Definition required (p : JSValue → bool) (v : option JSValue) : bool :=
  match v with None => false | Some x => p x end.

(** Whether a value has the shape the interface [SuggestionEvent]
    declares. *)
Definition is_SuggestionEvent (v : JSValue) : bool :=
  match v with
  | JObject _ =>
      optional is_string (get_prop "route" v)
      && required is_string_array (get_prop "suggestions" v)
      && required is_event_kind (get_prop "event" v)
      && optional is_boolean (get_prop "final" v)
      && optional is_error_record (get_prop "error" v)
  | _ => false
  end.

(** ** The world: the service object and the run time around it *)

(** A callback handed to [startSuggestionStream].  It is identified by
    [cb_id]; [cb_throws] tells on which arguments the call throws instead
    of returning.  Callbacks do not call back into the service. *)
Record Callback : Type := {
  cb_id : nat;
  cb_throws : JSValue → bool;
}.

(** An [EventSource] object.  [es_onmessage] is the closure assigned to
    [onmessage], given by the [threadId] it captured; [es_onerror] tells
    whether [onerror] has been assigned. *)
Record EventSourceObj : Type := {
  es_thread : string;
  es_closed : bool;
  es_onmessage : option string;
  es_onerror : bool;
}.

(** Jobs of the microtask queue. *)
Inductive Job : Type :=
| AwaitResume (threadId : string) (settled : option nat)
| ThenReaction (threadId : string) (settled : option nat)
| CatchReaction (rejected : bool).

(** The two private fields of the service, [eventSource] and
    [suggestionCallbacks], and the run time: every [EventSource] object
    created so far ([heap]; a handle is an index into it), the pending
    timers by due time in the order of arming, the clock in milliseconds,
    the microtask queue, and the calls made to callbacks so far, each
    with its argument. *)
Record World : Type := {
  eventSource : option nat;
  suggestionCallbacks : gmap string Callback;
  heap : list EventSourceObj;
  timers : list N;
  now : N;
  jobs : list Job;
  trace : list (nat * JSValue);
}.

Definition init : World :=
  {| eventSource := None; suggestionCallbacks := ∅; heap := [];
     timers := []; now := 0; jobs := []; trace := [] |}.

(** ** Computations that may throw *)

Inductive Exn : Type := SyntaxError | TypeError | CallbackError | CreationError.

Inductive Completion (A : Type) : Type :=
| Normal (a : A)
| Throw (e : Exn).
Arguments Normal {A} a.
Arguments Throw {A} e.

Definition JS (A : Type) : Type := World → Completion A * World.

#[global] Instance JS_ret : MRet JS := λ A a w, (Normal a, w).

#[global] Instance JS_bind : MBind JS := λ A B f m w,
  match m w with
  | (Normal a, w') => f a w'
  | (Throw e, w') => (Throw e, w')
  end.

Definition throw {A : Type} (e : Exn) : JS A := λ w, (Throw e, w).

(** [try { body } catch { handler }] *)
Definition try_catch (body : JS unit) (handler : Exn → JS unit) : JS unit := λ w,
  match body w with
  | (Normal a, w') => (Normal a, w')
  | (Throw e, w') => handler e w'
  end.

Definition skip : JS unit := mret tt.

Definition exec {A : Type} (m : JS A) (w : World) : World := snd (m w).

(** *** Primitive operations *)

Definition with_eventSource (o : option nat) (w : World) : World :=
  {| eventSource := o; suggestionCallbacks := suggestionCallbacks w;
     heap := heap w; timers := timers w; now := now w; jobs := jobs w;
     trace := trace w |}.

Definition with_callbacks (m : gmap string Callback) (w : World) : World :=
  {| eventSource := eventSource w; suggestionCallbacks := m;
     heap := heap w; timers := timers w; now := now w; jobs := jobs w;
     trace := trace w |}.

Definition with_heap (h : list EventSourceObj) (w : World) : World :=
  {| eventSource := eventSource w; suggestionCallbacks := suggestionCallbacks w;
     heap := h; timers := timers w; now := now w; jobs := jobs w;
     trace := trace w |}.

Definition with_timers (l : list N) (w : World) : World :=
  {| eventSource := eventSource w; suggestionCallbacks := suggestionCallbacks w;
     heap := heap w; timers := l; now := now w; jobs := jobs w;
     trace := trace w |}.

Definition with_now (t : N) (w : World) : World :=
  {| eventSource := eventSource w; suggestionCallbacks := suggestionCallbacks w;
     heap := heap w; timers := timers w; now := t; jobs := jobs w;
     trace := trace w |}.

Definition with_jobs (q : list Job) (w : World) : World :=
  {| eventSource := eventSource w; suggestionCallbacks := suggestionCallbacks w;
     heap := heap w; timers := timers w; now := now w; jobs := q;
     trace := trace w |}.

Definition with_trace (tr : list (nat * JSValue)) (w : World) : World :=
  {| eventSource := eventSource w; suggestionCallbacks := suggestionCallbacks w;
     heap := heap w; timers := timers w; now := now w; jobs := jobs w;
     trace := tr |}.

(** [this.eventSource] *)
Definition get_eventSource : JS (option nat) := λ w, (Normal (eventSource w), w).

(** [this.eventSource = o] *)
Definition set_eventSource (o : option nat) : JS unit := λ w,
  (Normal tt, with_eventSource o w).

(** [this.suggestionCallbacks.set(threadId, callback)] *)
Definition callbacks_set (threadId : string) (cb : Callback) : JS unit := λ w,
  (Normal tt, with_callbacks (<[threadId := cb]> (suggestionCallbacks w)) w).

(** [this.suggestionCallbacks.get(threadId)] *)
Definition callbacks_get (threadId : string) : JS (option Callback) := λ w,
  (Normal (suggestionCallbacks w !! threadId), w).

(** [this.suggestionCallbacks.clear()] *)
Definition callbacks_clear : JS unit := λ w,
  (Normal tt, with_callbacks ∅ w).

Definition close_obj (o : EventSourceObj) : EventSourceObj :=
  {| es_thread := es_thread o; es_closed := true;
     es_onmessage := es_onmessage o; es_onerror := es_onerror o |}.

(** [h.close()]: the object becomes CLOSED; closing twice is allowed. *)
Definition es_close (h : nat) : JS unit := λ w,
  (Normal tt, with_heap (alter close_obj h (heap w)) w).

Definition handlers_obj (threadId : string) (o : EventSourceObj) : EventSourceObj :=
  {| es_thread := es_thread o; es_closed := es_closed o;
     es_onmessage := Some threadId; es_onerror := true |}.

(** [h.onmessage = (event) => {...}; h.onerror = (error) => {...}], the
    first closure capturing [threadId]. *)
Definition es_set_handlers (h : nat) (threadId : string) : JS unit := λ w,
  (Normal tt, with_heap (alter (handlers_obj threadId) h (heap w)) w).

(** [new EventSource(`${this.baseURL}/suggest/${threadId}`)].  Whether
    the run time can create the object is [creatable]; the new object is
    open and has no handlers. *)
Definition new_EventSource (threadId : string) (creatable : bool) : JS nat := λ w,
  if creatable then
    (Normal (length (heap w)),
     with_heap (heap w ++ [{| es_thread := threadId; es_closed := false;
                              es_onmessage := None; es_onerror := false |}]) w)
  else (Throw CreationError, w).

(** [setTimeout(() => { this.stopSuggestionStream(); }, delay)]: every
    timer of the service has this one body, so a pending timer is its due
    time.  The handle [setTimeout] returns is dropped by the caller. *)
Definition setTimeout (delay : N) : JS unit := λ w,
  (Normal tt, with_timers (timers w ++ [now w + delay]) w).

Definition enqueue_job (j : Job) : JS unit := λ w,
  (Normal tt, with_jobs (jobs w ++ [j]) w).

(** [callback(data)] *)
Definition invoke (cb : Callback) (data : JSValue) : JS unit := λ w,
  let w' := with_trace (trace w ++ [(cb_id cb, data)]) w in
  if cb_throws cb data then (Throw CallbackError, w') else (Normal tt, w').

(** [JSON.parse(event.data)] *)
Definition JSON_parse (p : Payload) : JS JSValue :=
  match p with
  | Unparsable => throw SyntaxError
  | Parsed v => mret v
  end.

(** [data.final]: reading a property of [null] is a [TypeError]. *)
Definition read_final (data : JSValue) : JS (option JSValue) :=
  match data with
  | JNull => throw TypeError
  | _ => mret (get_prop "final" data)
  end.

(** ** The code shared word for word by both classes *)

(** [stopSuggestionStream()], chatService.ts 63-69 and api.ts 183-189. *)
Definition stopSuggestionStream : JS unit :=
  es ← get_eventSource;
  _ ← match es with
      | Some h => _ ← es_close h; set_eventSource None
      | None => skip
      end;
  callbacks_clear.

(** The [onmessage] closure, chatService.ts 31-45 and api.ts 156-165. *)
Definition onmessage (threadId : string) (event_data : Payload) : JS unit :=
  try_catch
    (data ← JSON_parse event_data;
     callback ← callbacks_get threadId;
     _ ← match callback with
         | Some cb => invoke cb data
         | None => skip
         end;
     final ← read_final data;
     if truthy final then stopSuggestionStream else skip)
    (λ _, skip).

(** The [onerror] closure, chatService.ts 47-50 and api.ts 166-168. *)
Definition onerror : JS unit := stopSuggestionStream.

(** The body of the timer, chatService.ts 53-55 and api.ts 169-171. *)
Definition ontimeout : JS unit := stopSuggestionStream.

(** What both classes do once the stream object [h] is at hand: keep it,
    install the handlers, arm the timer. *)
Definition attach (threadId : string) (h : nat) : JS unit :=
  _ ← set_eventSource (Some h);
  _ ← es_set_handlers h threadId;
  setTimeout 15000.

(** [apiService.getSuggestions(threadId)]: an [async] method in both
    clients, so it returns a promise that is already settled: fulfilled
    with the new object, or rejected when creating it throws (in the
    mobile client also when [EventSource] is not defined, api.ts 90-95). *)
Definition getSuggestions (threadId : string) (creatable : bool) : JS (option nat) :=
  λ w, match new_EventSource threadId creatable w with
       | (Normal h, w') => (Normal (Some h), w')
       | (Throw _, w') => (Normal None, w')
       end.

(** ** frontend/src/services/chatService.ts *)
Module Frontend.

(** [startSuggestionStream] up to its [await]: chatService.ts 21-29. *)
Definition startSuggestionStream (threadId : string) (callback : Callback)
    (creatable : bool) : JS unit :=
  _ ← callbacks_set threadId callback;
  es ← get_eventSource;
  _ ← match es with
      | Some h => es_close h
      | None => skip
      end;
  p ← getSuggestions threadId creatable;
  enqueue_job (AwaitResume threadId p).

(** The rest of [startSuggestionStream], resumed with the settled
    promise: chatService.ts 29-60. *)
Definition resume (threadId : string) (settled : option nat) : JS unit :=
  try_catch
    (match settled with
     | Some h => attach threadId h
     | None => throw CreationError
     end)
    (λ _, stopSuggestionStream).

End Frontend.

(** ** mobile/src/services/api.ts, class ChatService *)
Module Mobile.

(** [startSuggestionStream], api.ts 146-181.  [getSuggestions] always
    returns a promise, so the test for [then] succeeds and the two
    reactions are registered; the first is queued at once because the
    promise is settled. *)
Definition startSuggestionStream (threadId : string) (callback : Callback)
    (creatable : bool) : JS unit :=
  _ ← callbacks_set threadId callback;
  es ← get_eventSource;
  _ ← match es with
      | Some h => es_close h
      | None => skip
      end;
  try_catch
    (p ← getSuggestions threadId creatable;
     enqueue_job (ThenReaction threadId p))
    (λ _, stopSuggestionStream).

(** The reaction of [.then((eventSource) => {...})], api.ts 154-172: it
    settles the promise [.catch] hangs on, whose reaction is queued
    behind whatever is in the queue by then. *)
Definition then_reaction (threadId : string) (settled : option nat) : JS unit :=
  λ w, match settled with
       | Some h =>
           match attach threadId h w with
           | (Normal _, w') => enqueue_job (CatchReaction false) w'
           | (Throw _, w') => enqueue_job (CatchReaction true) w'
           end
       | None => enqueue_job (CatchReaction true) w
       end.

(** The reaction of [.catch(() => { this.stopSuggestionStream(); })],
    api.ts 172-174. *)
Definition catch_reaction (rejected : bool) : JS unit :=
  if rejected then stopSuggestionStream else skip.

End Mobile.

(** ** The event loop *)

Inductive Impl : Type := frontend | mobile.

Definition startSuggestionStream (i : Impl) : string → Callback → bool → JS unit :=
  match i with
  | frontend => Frontend.startSuggestionStream
  | mobile => Mobile.startSuggestionStream
  end.

Definition run_job (j : Job) : JS unit :=
  match j with
  | AwaitResume threadId settled => Frontend.resume threadId settled
  | ThenReaction threadId settled => Mobile.then_reaction threadId settled
  | CatchReaction rejected => Mobile.catch_reaction rejected
  end.

(** A bound on the number of jobs a job stands for: a [.then] reaction
    queues one more job, the others queue none. *)
Definition job_weight (j : Job) : nat :=
  match j with
  | AwaitResume _ _ => 1
  | ThenReaction _ _ => 2
  | CatchReaction _ => 1
  end.

Definition queue_weight (q : list Job) : nat :=
  foldr (λ j n, job_weight j + n)%nat 0%nat q.

(** Running the microtask queue, oldest job first. *)
Fixpoint drain (fuel : nat) (w : World) : World :=
  match fuel with
  | O => w
  | S fuel' =>
      match jobs w with
      | [] => w
      | j :: q => drain fuel' (exec (run_job j) (with_jobs q w))
      end
  end.

(** The microtask checkpoint at the end of every task. *)
Definition checkpoint (w : World) : World :=
  drain (queue_weight (jobs w)) w.

(** What the surroundings of the service do.  Calls of the two public
    methods may follow each other within one task; [EndOfTask] ends the
    task.  A message, an error and the passing of time are tasks of their
    own, so the microtask queue is empty when they start. *)
Inductive Event : Type :=
| CallStart (threadId : string) (callback : Callback) (creatable : bool)
| CallStop
| EndOfTask
| Message (h : nat) (data : Payload)
| Error (h : nat)
| Advance (ms : N).

(** The run time calls the [onmessage] handler of stream [h], if one is
    installed and the stream has not been closed: the task that delivers
    a message does nothing when it finds the [EventSource] in the state
    CLOSED, so a message that was on its way when [close()] was called is
    never handed to the handler. *)
Definition dispatch_message (h : nat) (data : Payload) (w : World) : World :=
  match heap w !! h with
  | Some o =>
      if es_closed o then w
      else match es_onmessage o with
           | Some threadId => exec (onmessage threadId data) w
           | None => w
           end
  | None => w
  end.

(** The run time calls the [onerror] handler of stream [h].  The handler
    makes no use of the stream it is called for, and the notice is not
    made to depend on [es_closed]: what is shown of errors below holds of
    a notice for any stream that has the handler. *)
Definition dispatch_error (h : nat) (w : World) : World :=
  match heap w !! h with
  | Some o => if es_onerror o then exec onerror w else w
  | None => w
  end.

Definition is_due (deadline : N) (due : N) : bool := due <=? deadline.

(** The clock moves on by [ms]; the timers that come due run in the order
    in which they were armed. *)
Definition advance (ms : N) (w : World) : World :=
  let deadline := now w + ms in
  let due := filter (λ d, is_due deadline d = true) (timers w) in
  let rest := filter (λ d, is_due deadline d = false) (timers w) in
  with_now deadline
    (foldl (λ w' _, exec ontimeout w') (with_timers rest w) due).

Definition step (i : Impl) (e : Event) (w : World) : World :=
  match e with
  | CallStart threadId callback creatable =>
      exec (startSuggestionStream i threadId callback creatable) w
  | CallStop => exec stopSuggestionStream w
  | EndOfTask => checkpoint w
  | Message h data => dispatch_message h data (checkpoint w)
  | Error h => dispatch_error h (checkpoint w)
  | Advance ms => advance ms (checkpoint w)
  end.

Definition run (i : Impl) (evs : list Event) (w : World) : World :=
  foldl (λ w' e, step i e w') w evs.

(** *** What is observed of a world *)

Definition idle (w : World) : Prop :=
  eventSource w = None ∧ suggestionCallbacks w = ∅.

Definition is_open (o : EventSourceObj) : bool := negb (es_closed o).

(** The streams that have been opened and not closed. *)
Definition open_streams (w : World) : list EventSourceObj :=
  filter (λ o, is_open o = true) (heap w).

Definition has_stream (w : World) : bool :=
  match eventSource w with Some _ => true | None => false end.

Definition observe (w : World) : list (nat * JSValue) * bool * gmap string Callback :=
  (trace w, has_stream w, suggestionCallbacks w).

(** Sample callbacks and payloads. *)
Definition cb1 : Callback := {| cb_id := 1; cb_throws := λ _, false |}.
Definition cb2 : Callback := {| cb_id := 2; cb_throws := λ _, false |}.

(** A callback that throws whatever it is called with. *)
Definition cb3 : Callback := {| cb_id := 3; cb_throws := λ _, true |}.

Definition update_ab : JSValue :=
  JObject [("event", JString "react");
           ("suggestions", JArray [JString "a"; JString "b"]);
           ("final", JBool false)].

Definition final_abc : JSValue :=
  JObject [("event", JString "react");
           ("suggestions", JArray [JString "a"; JString "b"; JString "c"]);
           ("final", JBool true)].

(** ** Closed forms of the worlds the methods produce

    These are stated here and proved equal to the monadic code below;
    the proofs then work with them. *)

(** After [stopSuggestionStream()]. *)
Definition stopped (w : World) : World :=
  {| eventSource := None; suggestionCallbacks := ∅;
     heap := match eventSource w with
             | Some h => alter close_obj h (heap w)
             | None => heap w
             end;
     timers := timers w; now := now w; jobs := jobs w; trace := trace w |}.

(** After [attach threadId h]. *)
Definition attached (threadId : string) (h : nat) (w : World) : World :=
  {| eventSource := Some h; suggestionCallbacks := suggestionCallbacks w;
     heap := alter (handlers_obj threadId) h (heap w);
     timers := timers w ++ [now w + 15000]; now := now w; jobs := jobs w;
     trace := trace w |}.

(** After the synchronous part of [startSuggestionStream], which leaves
    the job [mk threadId p] in the queue. *)
Definition requested (mk : string → option nat → Job) (threadId : string)
    (cb : Callback) (creatable : bool) (w : World) : World :=
  let hp := match eventSource w with
            | Some h => alter close_obj h (heap w)
            | None => heap w
            end in
  {| eventSource := eventSource w;
     suggestionCallbacks := <[threadId := cb]> (suggestionCallbacks w);
     heap := if creatable
             then hp ++ [{| es_thread := threadId; es_closed := false;
                            es_onmessage := None; es_onerror := false |}]
             else hp;
     timers := timers w; now := now w;
     jobs := jobs w ++ [mk threadId (if creatable then Some (length hp) else None)];
     trace := trace w |}.

Definition job_of (i : Impl) : string → option nat → Job :=
  match i with frontend => AwaitResume | mobile => ThenReaction end.

(** After the test of [data.final] in [onmessage]. *)
Definition final_checked (data : JSValue) (w : World) : World :=
  match data with
  | JNull => w
  | _ => if truthy (get_prop "final" data) then stopped w else w
  end.

(** After [onmessage] on a payload that parses to [data]. *)
Definition received (threadId : string) (data : JSValue) (w : World) : World :=
  match suggestionCallbacks w !! threadId with
  | Some cb =>
      let w' := with_trace (trace w ++ [(cb_id cb, data)]) w in
      if cb_throws cb data then w' else final_checked data w'
  | None => final_checked data w
  end.

(** After a job. *)
Definition job_done (j : Job) (w : World) : World :=
  match j with
  | AwaitResume t (Some h) => attached t h w
  | AwaitResume _ None => stopped w
  | ThenReaction t (Some h) =>
      with_jobs (jobs w ++ [CatchReaction false]) (attached t h w)
  | ThenReaction _ None => with_jobs (jobs w ++ [CatchReaction true]) w
  | CatchReaction true => stopped w
  | CatchReaction false => w
  end.

(** Events other than a call of [startSuggestionStream]. *)
Definition not_start (e : Event) : Prop :=
  match e with CallStart _ _ _ => False | _ => True end.

(** ** The sentences of the specification, as written

    Each is a proposition about the code above; which of them hold is
    settled in the second part. *)

(** No timer outlives the session it was armed for: after a teardown
    none is pending, and after a new session has started only its own
    is. *)
Definition no_orphan_timers (i : Impl) : Prop :=
  ∀ evs : list Event,
    timers (run i (evs ++ [CallStop]) init) = []
    ∧ ∀ t cb c,
        (length (timers (run i (evs ++ [CallStart t cb c; EndOfTask]) init)) ≤ 1)%nat.

(** A notification of the stream of a session, still to be delivered
    when the session is stopped or superseded, reaches no callback.  The
    session is the one [startSuggestionStream(t1, cb1)] starts after
    [evs], and [h] is its stream; the call that ends it follows at once,
    in the same task, or after the task has ended. *)
Definition superseded_is_silent (i : Impl) : Prop :=
  ∀ (evs : list Event) (t1 t2 : string) (cb1 cb2 : Callback)
    (c at_once : bool) (p : Payload),
    let w0 := run i evs init in
    let h := length (heap w0) in
    let w := run i (CallStart t1 cb1 true :: if at_once then [] else [EndOfTask])
               w0 in
    trace (run i [CallStop; Message h p] w) = trace w
    ∧ trace (run i [CallStart t2 cb2 c; Message h p] w) = trace w.

(** A decoded event whose [final] is [true], delivered on the open stream
    the manager holds, is passed to the callback of the session once and
    then tears the session down as [stopSuggestionStream()] does. *)
Definition final_tears_down (i : Impl) : Prop :=
  ∀ (evs : list Event) (h : nat) (o : EventSourceObj) (t : string)
    (cb : Callback) (v : JSValue),
    let w := run i evs init in
    jobs w = [] → eventSource w = Some h → heap w !! h = Some o →
    es_closed o = false → es_onmessage o = Some t →
    suggestionCallbacks w !! t = Some cb →
    get_prop "final" v = Some (JBool true) →
    let w' := step i (Message h (Parsed v)) w in
    trace w' = trace w ++ [(cb_id cb, v)]
    ∧ w' = exec stopSuggestionStream (with_trace (trace w ++ [(cb_id cb, v)]) w).

(** Starting a session leaves no registry entry under another key. *)
Definition start_clears_registry (i : Impl) : Prop :=
  ∀ (evs : list Event) (t : string) (cb : Callback) (c : bool) (k : string),
    k ≠ t →
    suggestionCallbacks (run i (evs ++ [CallStart t cb c]) init) !! k = None.

(** At most one stream is open at any time. *)
Definition at_most_one_open (i : Impl) : Prop :=
  ∀ evs : list Event, (length (open_streams (run i evs init)) ≤ 1)%nat.

(** A payload that does not parse to a [SuggestionEvent]. *)
Definition malformed (p : Payload) : Prop :=
  match p with
  | Unparsable => True
  | Parsed v => is_SuggestionEvent v = false
  end.

(** A malformed message changes nothing. *)
Definition drops_malformed (i : Impl) : Prop :=
  ∀ (evs : list Event) (h : nat) (p : Payload),
    let w := run i evs init in
    jobs w = [] → malformed p → step i (Message h p) w = w.

(** The two classes cannot be told apart. *)
Definition implementations_agree : Prop :=
  ∀ evs : list Event,
    observe (run frontend evs init) = observe (run mobile evs init).

(** ** Side conditions and invariants *)

(** Within one task no successful [startSuggestionStream] follows one
    whose stream could not be created.  [failed] tells whether the task so
    far has seen such a failure. *)
Fixpoint orderly_from (failed : bool) (evs : list Event) : bool :=
  match evs with
  | [] => true
  | CallStart _ _ creatable :: rest =>
      if creatable then negb failed && orderly_from failed rest
      else orderly_from true rest
  | CallStop :: rest => orderly_from failed rest
  | _ :: rest => orderly_from false rest
  end.

Definition orderly (evs : list Event) : Prop := orderly_from false evs = true.

(** Every call of [startSuggestionStream] is the last call of its task:
    the task ends before the next call of either method.  [pending] tells
    whether such a call has been made in the task so far. *)
Fixpoint serial_from (pending : bool) (evs : list Event) : bool :=
  match evs with
  | [] => true
  | CallStart _ _ _ :: rest => negb pending && serial_from true rest
  | CallStop :: rest => negb pending && serial_from false rest
  | _ :: rest => serial_from false rest
  end.

Definition serial (evs : list Event) : Prop := serial_from false evs = true.

(** The world without its microtask queue. *)
Definition strip (w : World) : World := with_jobs [] w.

(** What a queue of settled promises does to the world in each class:
    [chatService.ts] resumes one [await] after the other; in [api.ts] the
    [.then] reactions run first and the [.catch] reactions behind them. *)
Definition resume_all (q : list (string * option nat)) (w : World) : World :=
  foldl (λ w' tp, match snd tp with
                  | Some h => attached (fst tp) h w'
                  | None => stopped w'
                  end) w q.

Definition attach_all (q : list (string * option nat)) (w : World) : World :=
  foldl (λ w' tp, match snd tp with
                  | Some h => attached (fst tp) h w'
                  | None => w'
                  end) w q.

Definition settle (rejections : list bool) (w : World) : World :=
  if existsb id rejections then stopped w else w.

Definition rejected_of (tp : string * option nat) : bool :=
  match snd tp with Some _ => false | None => true end.

(** The final message of the event stream as docs/api_specification.md
    shows it: it has no [event] member. *)
Definition documented_final : JSValue :=
  JObject [("route", JString "course");
           ("suggestions", JArray [JString "a"; JString "b"; JString "c"]);
           ("final", JBool true)].

Definition await_job (tp : string * option nat) : Job :=
  AwaitResume (fst tp) (snd tp).

Definition then_job (tp : string * option nat) : Job :=
  ThenReaction (fst tp) (snd tp).

(** How the worlds of the two classes are related after the same events:
    they differ in their queues only, which hold the same settled
    promises, the fulfilled ones [ss] before the rejected ones [fs]. *)
Definition sim (failed : bool) (wF wM : World) : Prop :=
  strip wF = strip wM
  ∧ ∃ ss fs : list (string * option nat),
      jobs wF = map await_job (ss ++ fs)
      ∧ jobs wM = map then_job (ss ++ fs)
      ∧ Forall (λ tp, rejected_of tp = false) ss
      ∧ Forall (λ tp, rejected_of tp = true) fs
      ∧ (failed = false → fs = []).

(** Only the stream the manager holds can be open. *)
Definition held_only (w : World) : Prop :=
  ∀ h o, heap w !! h = Some o → es_closed o = false → eventSource w = Some h.

(** Between tasks: the queue is empty and only the held stream can be
    open. *)
Definition settled (w : World) : Prop := jobs w = [] ∧ held_only w.

(** After the one call of a task: its job is in the queue, and only the
    stream that job carries can be open. *)
Definition in_flight (i : Impl) (w : World) : Prop :=
  ∃ t p, jobs w = [job_of i t p]
         ∧ ∀ h o, heap w !! h = Some o → es_closed o = false → p = Some h.


(** Stream [h] has been closed. *)
Definition closed_at (h : nat) (w : World) : Prop :=
  es_closed <$> heap w !! h = Some true.

(** Stream [h] has been closed, or the manager holds it and no job is
    waiting. *)
Definition kept_or_closed (h : nat) (w : World) : Prop :=
  closed_at h w
  ∨ (eventSource w = Some h ∧ jobs w = [] ∧ is_Some (heap w !! h)).

Definition is_catch (j : Job) : Prop :=
  match j with CatchReaction _ => True | _ => False end.

(** While the task of a [startSuggestionStream] runs: the job [j] that
    attaches stream [h] is in the queue with nothing but [.catch]
    reactions behind it; or it has run, and [h] is held or closed. *)
Definition attaching (j : Job) (h : nat) (w : World) : Prop :=
  is_Some (heap w !! h)
  ∧ ((∃ q1 q2, jobs w = q1 ++ j :: q2 ∧ Forall is_catch q2)
     ∨ (Forall is_catch (jobs w) ∧ (closed_at h w ∨ eventSource w = Some h))).

(** * The rest of the two service files *)

(** ** HTTP calls and their outcomes *)

(** What the HTTP client makes of a request: a response with its status
    and its body ([response.data], the JSON value of the body or the body
    as a string), or a rejection, with the status of the response if
    there was one. *)
Inductive HttpResult : Type :=
| Response (status : N) (data : JSValue)
| Rejection (status : option N).

(** What a method can throw, or reject its promise with: [new Error(x)],
    given by the [x] handed to the constructor; a [TypeError] of the run
    time; the rejection of the HTTP client, passed on. *)
Inductive Failure : Type :=
| ErrorWith (message : JSValue)
| TypeErrorThrown
| RequestFailed (status : option N).

Inductive Outcome (A : Type) : Type :=
| Returns (a : A)
| Fails (f : Failure).
Arguments Returns {A} a.
Arguments Fails {A} f.

(** [typeof v === 'object' && v !== null] *)
Definition is_object (v : JSValue) : bool :=
  match v with JObject _ | JArray _ => true | _ => false end.

(** ['k' in v], for [v] an object: none of the keys asked for below is a
    member of an array or of [Object.prototype]. *)
Definition has_member (k : string) (v : JSValue) : bool :=
  match get_prop k v with Some _ => true | None => false end.

(** [v.code !== 0] is false only for the number zero. *)
Definition is_zero (v : option JSValue) : bool :=
  match v with
  | Some (JNumber z) => Z.eqb z 0
  | _ => false
  end.

(** [a || b] on values, [None] being [undefined]. *)
Definition or_else (a : option JSValue) (b : JSValue) : JSValue :=
  match a with
  | Some x => if truthy a then x else b
  | None => b
  end.

(** [{ code: 0, message: 'OK', data: data }] *)
Definition ok_envelope (data : JSValue) : JSValue :=
  JObject [("code", JNumber 0); ("message", JString "OK"); ("data", data)].

(** The normalisation at the end of [ApiService.sendMessage] and
    [ApiService.getOrder], the same text in both clients: frontend api.ts
    105-110 and 146-150, mobile api.ts 53-58 and 99-103. *)
Definition ensure_envelope (dataUnknown : JSValue) : JSValue :=
  if is_object dataUnknown && negb (has_member "code" dataUnknown)
  then ok_envelope dataUnknown
  else dataUnknown.

(** The check every caller makes on what comes back, chatService.ts
    11-14 and 74-77, mobile api.ts 123-126 and 136-139:
    [if (response.code !== 0) throw new Error(response.message || fallback);
     return response.data]. *)
Definition unwrap (fallback : string) (response : JSValue) : Outcome (option JSValue) :=
  match response with
  | JNull => Fails TypeErrorThrown
  | _ =>
      if is_zero (get_prop "code" response)
      then Returns (get_prop "data" response)
      else Fails (ErrorWith (or_else (get_prop "message" response) (JString fallback)))
  end.

(** ** class ApiService, frontend/src/services/api.ts *)
Module FrontendApi.

(** [sendMessage], api.ts 98-111, after the request has been made. *)
Definition sendMessage (http : HttpResult) : Outcome JSValue :=
  match http with
  | Response _ dataUnknown => Returns (ensure_envelope dataUnknown)
  | Rejection st => Fails (RequestFailed st)
  end.

(** [getOrder], api.ts 144-151. *)
Definition getOrder (http : HttpResult) : Outcome JSValue :=
  match http with
  | Response _ dataUnknown => Returns (ensure_envelope dataUnknown)
  | Rejection st => Fails (RequestFailed st)
  end.

End FrontendApi.

(** ** class ApiService, mobile/src/services/api.ts *)
Module MobileApi.

(** [sendMessage], api.ts 46-59. *)
Definition sendMessage (http : HttpResult) : Outcome JSValue :=
  match http with
  | Response _ dataUnknown => Returns (ensure_envelope dataUnknown)
  | Rejection st => Fails (RequestFailed st)
  end.

(** [getOrder], api.ts 97-104. *)
Definition getOrder (http : HttpResult) : Outcome JSValue :=
  match http with
  | Response _ dataUnknown => Returns (ensure_envelope dataUnknown)
  | Rejection st => Fails (RequestFailed st)
  end.

(** [getModels], api.ts 66-76: the body itself when it has a [current]
    member, else its [data] member when it has one, else the body. *)
Definition getModels (http : HttpResult) : Outcome (option JSValue) :=
  match http with
  | Response _ dataUnknown =>
      if is_object dataUnknown && has_member "current" dataUnknown
      then Returns (Some dataUnknown)
      else if is_object dataUnknown && has_member "data" dataUnknown
      then Returns (get_prop "data" dataUnknown)
      else Returns (Some dataUnknown)
  | Rejection st => Fails (RequestFailed st)
  end.

(** [getGreeting], api.ts 78-88. *)
Definition getGreeting (http : HttpResult) : Outcome (option JSValue) :=
  match http with
  | Response _ dataUnknown =>
      if is_object dataUnknown && has_member "message" dataUnknown
         && has_member "options" dataUnknown
      then Returns (Some dataUnknown)
      else if is_object dataUnknown && has_member "data" dataUnknown
      then Returns (get_prop "data" dataUnknown)
      else Returns (Some dataUnknown)
  | Rejection st => Fails (RequestFailed st)
  end.

End MobileApi.

(** [try { const response = await call; ...check... } catch (error) {
    console.error(...); throw error }]: what the call fails with is
    thrown again as it is. *)
Definition checked (fallback : string) (called : Outcome JSValue) : Outcome (option JSValue) :=
  match called with
  | Returns response => unwrap fallback response
  | Fails f => Fails f
  end.

(** ** class ChatService, the methods besides the suggestion stream *)
Module FrontendChat.

(** [sendMessage], chatService.ts 8-19. *)
Definition sendMessage (http : HttpResult) : Outcome (option JSValue) :=
  checked "发送消息失败" (FrontendApi.sendMessage http).

(** [executeCommand], chatService.ts 71-82. *)
Definition executeCommand (http : HttpResult) : Outcome (option JSValue) :=
  checked "执行命令失败" (FrontendApi.sendMessage http).

End FrontendChat.

Module MobileChat.

(** [sendMessage], mobile api.ts 115-131. *)
Definition sendMessage (http : HttpResult) : Outcome (option JSValue) :=
  checked "发送消息失败" (MobileApi.sendMessage http).

(** [executeCommand], mobile api.ts 133-144. *)
Definition executeCommand (http : HttpResult) : Outcome (option JSValue) :=
  checked "执行命令失败" (MobileApi.sendMessage http).

End MobileChat.

(** ** The interceptors of the HTTP client *)

(** The request as the interceptor sees it: [config.method], [config.url],
    [config.headers] and the [_startTime] it stamps on it. *)
Record RequestConfig : Type := {
  req_method : option string;
  req_url : option string;
  req_headers : gmap string string;
  req_startTime : option N;
}.

(** [s || d] on strings, [None] being [null] or [undefined]: the empty
    string is falsy. *)
Definition str_or (o : option string) (d : string) : string :=
  match o with
  | Some s => if String.eqb s "" then d else s
  | None => d
  end.

(** [s || undefined] *)
Definition str_truthy (o : option string) : option string :=
  match o with
  | Some s => if String.eqb s "" then None else Some s
  | None => None
  end.

(** [a || b] on strings that may be missing. *)
Definition opt_or (a b : option string) : option string :=
  match str_truthy a with
  | Some s => Some s
  | None => b
  end.

Definition simpleGetPaths : list string := ["/health"; "/models/list"; "/greet"].

(** [if (v) headers[k] = v] *)
Definition set_if_truthy (k : string) (v : option string)
    (h : gmap string string) : gmap string string :=
  match str_truthy v with
  | Some s => <[k := s]> h
  | None => h
  end.

Section Interceptors.

(** Two functions of the run time: [String.prototype.toLowerCase] and the
    [pathname] of [new URL(s)], [None] when the constructor throws. *)
Variable toLowerCase : string → string.
Variable URL_pathname : string → option string.

(** [(config.method || 'get').toLowerCase()] *)
Definition method_of (config : RequestConfig) : string :=
  toLowerCase (str_or (req_method config) "get").

(** [config.url ? (config.url.startsWith('http') ? config.url :
    `${this.baseURL}${config.url}`) : this.baseURL] *)
Definition url_of (baseURL : string) (config : RequestConfig) : string :=
  match str_truthy (req_url config) with
  | Some u => if String.prefix "http" u then u else baseURL +:+ u
  | None => baseURL
  end.

(** The path of the request, ['/'] when the URL cannot be parsed. *)
Definition pathname_of (baseURL : string) (config : RequestConfig) : string :=
  match URL_pathname (url_of baseURL config) with
  | Some p => p
  | None => "/"
  end.

Definition isSimpleGet (baseURL : string) (config : RequestConfig) : bool :=
  String.eqb (method_of config) "get"
  && bool_decide (pathname_of baseURL config ∈ simpleGetPaths).

(** [delete config.headers['Content-Type']] for a GET. *)
Definition strip_content_type (config : RequestConfig)
    (h : gmap string string) : gmap string string :=
  if String.eqb (method_of config) "get" then delete "Content-Type" h else h.

(** The request interceptor of the frontend client, api.ts 22-57.
    [localStorage] is the storage of the page, [time] is [Date.now()]. *)
Definition frontend_request (baseURL : string) (localStorage : gmap string string)
    (time : N) (config : RequestConfig) : RequestConfig :=
  let h :=
    if isSimpleGet baseURL config then req_headers config
    else
      let tenantId := str_or (localStorage !! "tenantId") "default" in
      set_if_truthy "X-API-Key" (localStorage !! "apiKey")
        (set_if_truthy "X-Tenant-ID" (Some tenantId) (req_headers config)) in
  {| req_method := req_method config; req_url := req_url config;
     req_headers := strip_content_type config h;
     req_startTime := Some time |}.

(** The request interceptor of the mobile client, api.ts 20-37.
    [asyncStorage] is [AsyncStorage]; [envTenant] and [envKey] are
    [process.env.EXPO_PUBLIC_TENANT_ID] and [..._API_KEY]. *)
Definition mobile_request (asyncStorage : gmap string string)
    (envTenant envKey : option string) (time : N)
    (config : RequestConfig) : RequestConfig :=
  let tenantFromStorage := str_truthy (asyncStorage !! "tenantId") in
  let keyFromStorage := asyncStorage !! "apiKey" in
  let tenantFromEnv := str_truthy envTenant in
  let keyFromEnv := str_truthy envKey in
  let tenantId := str_or (opt_or tenantFromStorage tenantFromEnv) "default" in
  let apiKey := opt_or keyFromStorage keyFromEnv in
  {| req_method := req_method config; req_url := req_url config;
     req_headers :=
       strip_content_type config
         (set_if_truthy "X-API-Key" apiKey
            (set_if_truthy "X-Tenant-ID" (Some tenantId) (req_headers config)));
     req_startTime := Some time |}.

End Interceptors.

(** The error branch of the response interceptor of the frontend client,
    api.ts 76-93, on the storage of the page and [window.location.href];
    the error itself is rejected again as it came. *)
Definition frontend_response_error (status : option N)
    (page : gmap string string * string) : gmap string string * string :=
  match status with
  | Some 401 => (delete "apiKey" (fst page), "/login")
  | _ => page
  end.

(** [toLowerCase] on the letters A to Z. *)
Fixpoint lower_ascii (s : string) : string :=
  match s with
  | EmptyString => EmptyString
  | String c rest =>
      let n := Ascii.nat_of_ascii c in
      String (if (Nat.leb 65 n && Nat.leb n 90)%bool
              then Ascii.ascii_of_nat (n + 32) else c)
             (lower_ascii rest)
  end.

(** The path of the URLs made of [base] and one of the paths the clients
    ask for. *)
Definition path_after (base : string) (s : string) : option string :=
  if String.prefix base s
  then Some (String.substring (String.length base)
                              (String.length s - String.length base) s)
  else None.

(** Sample requests. *)
Definition local_base : string := "http://localhost:8000".

Definition post_chat : RequestConfig :=
  {| req_method := Some "POST"; req_url := Some "/chat";
     req_headers := {["Content-Type" := "application/json"]};
     req_startTime := None |}.

Definition get_health : RequestConfig :=
  {| req_method := None; req_url := Some "/health";
     req_headers := {["Content-Type" := "application/json"]};
     req_startTime := None |}.

(** * The chat store and the component that calls the service *)

(** ** stores/chatStore.ts *)

(** The values a message holds: what JSON can say, a [Date], or
    [undefined] under a key that is present. *)
Inductive StoreValue : Type :=
| VUndefined
| VJson (v : JSValue)
| VDate (ms : N).

(** A message is an object: its own keys and their values.  The spread
    [{ ...msg, ...updates }] is [updates ∪ msg], the keys of [updates]
    winning. *)
Abbreviation ChatMessage := (gmap string StoreValue).

(** [msg.id === messageId] *)
Definition has_id (messageId : string) (msg : ChatMessage) : bool :=
  match msg !! "id" with
  | Some (VJson (JString s)) => String.eqb s messageId
  | _ => false
  end.

Record ChatSession : Type := {
  session_id : string;
  session_title : string;
  session_messages : list ChatMessage;
  createdAt : N;
  updatedAt : N;
  session_tenantId : option string;
}.

Record ChatState : Type := {
  currentSession : option ChatSession;
  sessions : list ChatSession;
  isLoading : bool;
  isConnected : bool;
  store_error : option string;
  store_threadId : option string;
}.

Definition initial_store : ChatState :=
  {| currentSession := None; sessions := []; isLoading := false;
     isConnected := false; store_error := None; store_threadId := None |}.

(** [{ ...currentSession, messages: msgs, updatedAt: new Date() }] *)
Definition with_messages (msgs : list ChatMessage) (time : N) (c : ChatSession) : ChatSession :=
  {| session_id := session_id c; session_title := session_title c;
     session_messages := msgs; createdAt := createdAt c; updatedAt := time;
     session_tenantId := session_tenantId c |}.

(** [sessions.map(session => session.id === currentSession.id ?
    updatedSession : session)] *)
Definition replace_session (current updated : ChatSession)
    (l : list ChatSession) : list ChatSession :=
  map (λ session, if String.eqb (session_id session) (session_id current)
                  then updated else session) l.

(** [set({ currentSession: updatedSession, sessions: updatedSessions })] *)
Definition put_session (current updated : ChatSession) (s : ChatState) : ChatState :=
  {| currentSession := Some updated;
     sessions := replace_session current updated (sessions s);
     isLoading := isLoading s; isConnected := isConnected s;
     store_error := store_error s; store_threadId := store_threadId s |}.

(** [addMessage], the same text in both stores: frontend chatStore.ts
    32-50, mobile chatStore.ts 34-52.  [time] is [new Date()]. *)
Definition addMessage (message : ChatMessage) (time : N) (s : ChatState) : ChatState :=
  match currentSession s with
  | None => s
  | Some current =>
      put_session current
        (with_messages (session_messages current ++ [message]) time current) s
  end.

(** [updateMessage], frontend chatStore.ts 52-74, mobile 54-76. *)
Definition updateMessage (messageId : string) (updates : ChatMessage) (time : N)
    (s : ChatState) : ChatState :=
  match currentSession s with
  | None => s
  | Some current =>
      put_session current
        (with_messages
           (map (λ msg, if has_id messageId msg then updates ∪ msg else msg)
                (session_messages current))
           time current) s
  end.

(** [sessions.filter(session => session.id !== sessionId)] *)
Definition without_session (sessionId : string) (l : list ChatSession) : list ChatSession :=
  filter (λ session, String.eqb (session_id session) sessionId = false) l.

(** [currentSession?.id === sessionId] *)
Definition current_is (sessionId : string) (s : ChatState) : bool :=
  match currentSession s with
  | Some c => String.eqb (session_id c) sessionId
  | None => false
  end.

Module FrontendStore.

(** [createSession], chatStore.ts 76-93; [id] and [thread] are the two
    results of [uuidv4()], [created] and [updated] those of [new Date()]. *)
Definition createSession (title : option string) (id thread : string)
    (created updated : N) (localStorage : gmap string string)
    (s : ChatState) : ChatSession * ChatState :=
  let newSession :=
    {| session_id := id;
       session_title := match title with Some t => t | None => "新对话" end;
       session_messages := []; createdAt := created; updatedAt := updated;
       session_tenantId := Some (str_or (localStorage !! "tenantId") "default") |} in
  (newSession,
   {| currentSession := Some newSession; sessions := newSession :: sessions s;
      isLoading := isLoading s; isConnected := isConnected s;
      store_error := store_error s; store_threadId := Some thread |}).

(** [deleteSession], chatStore.ts 95-108; [fresh] is [uuidv4()], asked
    for only when no session is left. *)
Definition deleteSession (sessionId : string) (fresh : string)
    (s : ChatState) : ChatState :=
  let updatedSessions := without_session sessionId (sessions s) in
  if current_is sessionId s then
    {| currentSession := head updatedSessions; sessions := updatedSessions;
       isLoading := isLoading s; isConnected := isConnected s;
       store_error := store_error s;
       store_threadId := match head updatedSessions with
                         | Some _ => store_threadId s
                         | None => Some fresh
                         end |}
  else
    {| currentSession := currentSession s; sessions := updatedSessions;
       isLoading := isLoading s; isConnected := isConnected s;
       store_error := store_error s; store_threadId := store_threadId s |}.

(** [clearCurrentSession], chatStore.ts 115-118. *)
Definition clearCurrentSession (id thread : string) (created updated : N)
    (localStorage : gmap string string) (s : ChatState) : ChatState :=
  snd (createSession (Some "新对话") id thread created updated localStorage s).

End FrontendStore.

Module MobileStore.

(** [createSession], mobile chatStore.ts 78-94: no tenant id. *)
Definition createSession (title : option string) (id thread : string)
    (created updated : N) (s : ChatState) : ChatSession * ChatState :=
  let newSession :=
    {| session_id := id;
       session_title := match title with Some t => t | None => "新对话" end;
       session_messages := []; createdAt := created; updatedAt := updated;
       session_tenantId := None |} in
  (newSession,
   {| currentSession := Some newSession; sessions := newSession :: sessions s;
      isLoading := isLoading s; isConnected := isConnected s;
      store_error := store_error s; store_threadId := Some thread |}).

(** [deleteSession], mobile chatStore.ts 96-108. *)
Definition deleteSession (sessionId : string) (s : ChatState) : ChatState :=
  let filteredSessions := without_session sessionId (sessions s) in
  {| currentSession := if current_is sessionId s then head filteredSessions
                       else currentSession s;
     sessions := filteredSessions;
     isLoading := isLoading s; isConnected := isConnected s;
     store_error := store_error s; store_threadId := store_threadId s |}.

(** [clearCurrentSession], mobile chatStore.ts 115-117. *)
Definition clearCurrentSession (s : ChatState) : ChatState :=
  {| currentSession := None; sessions := sessions s;
     isLoading := isLoading s; isConnected := isConnected s;
     store_error := store_error s; store_threadId := None |}.

End MobileStore.

(** The actions of a store, with what the run time supplies to each. *)
Inductive StoreAction : Type :=
| AddMessage (message : ChatMessage) (time : N)
| UpdateMessage (messageId : string) (updates : ChatMessage) (time : N)
| CreateSession (title : option string) (id thread : string) (created updated : N)
| DeleteSession (sessionId : string) (fresh : string)
| ClearCurrentSession (id thread : string) (created updated : N)
| SetCurrentSession (session : option ChatSession)
| SetLoading (loading : bool)
| SetConnected (connected : bool)
| SetError (error : option string)
| SetThreadId (threadId : option string).

(** The one-line setters, the same in both stores. *)
Definition set_field (a : StoreAction) (s : ChatState) : ChatState :=
  match a with
  | SetCurrentSession session =>
      {| currentSession := session; sessions := sessions s;
         isLoading := isLoading s; isConnected := isConnected s;
         store_error := store_error s; store_threadId := store_threadId s |}
  | SetLoading loading =>
      {| currentSession := currentSession s; sessions := sessions s;
         isLoading := loading; isConnected := isConnected s;
         store_error := store_error s; store_threadId := store_threadId s |}
  | SetConnected connected =>
      {| currentSession := currentSession s; sessions := sessions s;
         isLoading := isLoading s; isConnected := connected;
         store_error := store_error s; store_threadId := store_threadId s |}
  | SetError error =>
      {| currentSession := currentSession s; sessions := sessions s;
         isLoading := isLoading s; isConnected := isConnected s;
         store_error := error; store_threadId := store_threadId s |}
  | SetThreadId threadId =>
      {| currentSession := currentSession s; sessions := sessions s;
         isLoading := isLoading s; isConnected := isConnected s;
         store_error := store_error s; store_threadId := threadId |}
  | _ => s
  end.

Definition frontend_act (localStorage : gmap string string) (a : StoreAction)
    (s : ChatState) : ChatState :=
  match a with
  | AddMessage message time => addMessage message time s
  | UpdateMessage messageId updates time => updateMessage messageId updates time s
  | CreateSession title id thread created updated =>
      snd (FrontendStore.createSession title id thread created updated localStorage s)
  | DeleteSession sessionId fresh => FrontendStore.deleteSession sessionId fresh s
  | ClearCurrentSession id thread created updated =>
      FrontendStore.clearCurrentSession id thread created updated localStorage s
  | _ => set_field a s
  end.

Definition mobile_act (a : StoreAction) (s : ChatState) : ChatState :=
  match a with
  | AddMessage message time => addMessage message time s
  | UpdateMessage messageId updates time => updateMessage messageId updates time s
  | CreateSession title id thread created updated =>
      snd (MobileStore.createSession title id thread created updated s)
  | DeleteSession sessionId _ => MobileStore.deleteSession sessionId s
  | ClearCurrentSession _ _ _ _ => MobileStore.clearCurrentSession s
  | _ => set_field a s
  end.

(** The current session, when there is one, is one of the sessions of
    the list. *)
Definition listed (s : ChatState) : Prop :=
  match currentSession s with
  | Some c => c ∈ sessions s
  | None => True
  end.

Definition keeps_current (a : StoreAction) : Prop :=
  match a with SetCurrentSession _ => False | _ => True end.

(** ** components/chat/ChatInterface.tsx, the suggestion stream *)

(** [event.event === 'react'] *)
Definition is_react (event : JSValue) : bool :=
  match get_prop "event" event with
  | Some (JString kind) => String.eqb kind "react"
  | _ => false
  end.

(** What the callback of lines 175-179 does to the store when it
    returns:
    [if (event.event === 'react' && event.suggestions)
       updateMessage(messageId, { suggestions: event.suggestions })]. *)
Definition on_suggestion (messageId : string) (event : JSValue) (time : N)
    (s : ChatState) : ChatState :=
  if is_react event && truthy (get_prop "suggestions" event) then
    match get_prop "suggestions" event with
    | Some v => updateMessage messageId {["suggestions" := VJson v]} time s
    | None => s
    end
  else s.

(** The callback as the service sees it: it throws on [null], whose
    [event] member cannot be read, and on nothing else. *)
Definition suggestion_callback (id : nat) : Callback :=
  {| cb_id := id;
     cb_throws := λ event, match event with JNull => true | _ => false end |}.

(** A timer of the component that has not fired: its handle, the time it
    is due, and the [threadId] and [messageId] its closure holds. *)
Record DebounceTimer : Type := {
  dt_id : nat;
  dt_due : N;
  dt_thread : string;
  dt_message : string;
}.

(** The component and the service it calls: [suggestionTimeoutRef.current],
    the timers of the component still waiting, and the handle the next
    [setTimeout] will return (handles are positive). *)
Record Chat : Type := {
  service : World;
  suggestionTimeoutRef : option nat;
  waiting : list DebounceTimer;
  next_timer : nat;
}.

Definition chat_init : Chat :=
  {| service := init; suggestionTimeoutRef := None; waiting := [];
     next_timer := 1 |}.

(** [if (suggestionTimeoutRef.current) clearTimeout(suggestionTimeoutRef.current)]:
    handle 0 would be falsy. *)
Definition clear_waiting (ref : option nat) (l : list DebounceTimer) : list DebounceTimer :=
  match ref with
  | Some id => if Nat.eqb id 0 then l
               else filter (λ t, Nat.eqb (dt_id t) id = false) l
  | None => l
  end.

(** [startSuggestionStream(threadId, messageId)] of the component, lines
    167-181. *)
Definition request (threadId messageId : string) (u : Chat) : Chat :=
  {| service := service u;
     suggestionTimeoutRef := Some (next_timer u);
     waiting := clear_waiting (suggestionTimeoutRef u) (waiting u)
                ++ [{| dt_id := next_timer u; dt_due := now (service u) + 500;
                       dt_thread := threadId; dt_message := messageId |}];
     next_timer := S (next_timer u) |}.

(** A timer of the component fires: time has passed up to it, and the
    task it runs calls [chatService.startSuggestionStream] once. *)
Definition fire_one (creatable : bool) (t : DebounceTimer) (w : World) : World :=
  run frontend
    [Advance (dt_due t - now w);
     CallStart (dt_thread t) (suggestion_callback (dt_id t)) creatable;
     EndOfTask] w.

(** Time moves on by [ms]: the timers of the component that come due
    fire in their order, each after the timers of the service due by
    then, and the clock ends at the new time. *)
Definition elapse (ms : N) (creatable : bool) (u : Chat) : Chat :=
  let deadline := now (service u) + ms in
  let due := filter (λ t, is_due deadline (dt_due t) = true) (waiting u) in
  let rest := filter (λ t, is_due deadline (dt_due t) = false) (waiting u) in
  let w := foldl (λ w' t, fire_one creatable t w') (service u) due in
  {| service := step frontend (Advance (deadline - now w)) w;
     suggestionTimeoutRef := suggestionTimeoutRef u;
     waiting := rest; next_timer := next_timer u |}.

Inductive UiEvent : Type :=
| Request (threadId messageId : string)
| Delivered (h : nat) (data : Payload)
| Broken (h : nat)
| Elapse (ms : N) (creatable : bool).

Definition on_service (f : World → World) (u : Chat) : Chat :=
  {| service := f (service u); suggestionTimeoutRef := suggestionTimeoutRef u;
     waiting := waiting u; next_timer := next_timer u |}.

Definition ui_step (e : UiEvent) (u : Chat) : Chat :=
  match e with
  | Request threadId messageId => request threadId messageId u
  | Delivered h data => on_service (step frontend (Message h data)) u
  | Broken h => on_service (step frontend (Error h)) u
  | Elapse ms creatable => elapse ms creatable u
  end.

Definition ui_run (evs : list UiEvent) (u : Chat) : Chat :=
  foldl (λ u' e, ui_step e u') u evs.

(** At most one timer of the component waits, and the ref holds its
    handle. *)
Definition one_waiting (u : Chat) : Prop :=
  next_timer u ≠ 0%nat
  ∧ (waiting u = []
     ∨ ∃ t, waiting u = [t] ∧ suggestionTimeoutRef u = Some (dt_id t)
            ∧ dt_id t ≠ 0%nat).

(** ** mobile/App.tsx, the storage before the first requests *)

(** [loadSystemConfig], App.tsx 24-35: an empty or missing tenant id in
    storage is replaced by the one of the environment, or [default]; an
    empty or missing key by the one of the environment, or the empty
    string.  Both entries are read before either is written. *)
Definition seed_storage (envTenant envKey : option string)
    (asyncStorage : gmap string string) : gmap string string :=
  let fromEnvTenant := str_or envTenant "default" in
  let fromEnvKey := str_or envKey "" in
  let storedTenant := str_or (asyncStorage !! "tenantId") "" in
  let storedKey := str_or (asyncStorage !! "apiKey") "" in
  let seeded :=
    if String.eqb storedTenant "" then <["tenantId" := fromEnvTenant]> asyncStorage
    else asyncStorage in
  if String.eqb storedKey "" then <["apiKey" := fromEnvKey]> seeded else seeded.

(** * Properties *)

(** ** [stopSuggestionStream] *)

Lemma stop_eq (w : World) : stopSuggestionStream w = (Normal tt, stopped w).
Proof. destruct w as [[h|] m hp tm n q tr]; reflexivity. Qed.

Lemma exec_stop (w : World) : exec stopSuggestionStream w = stopped w.
Proof. unfold exec. now rewrite stop_eq. Qed.

Lemma stopped_idle (w : World) : idle (stopped w).
Proof. split; reflexivity. Qed.

Lemma stopped_stopped (w : World) : stopped (stopped w) = stopped w.
Proof. reflexivity. Qed.

Lemma stopped_of_idle (w : World) : idle w → stopped w = w.
Proof.
  destruct w as [es m hp tm n q tr]. intros [Hes Hm]. cbn in Hes, Hm.
  subst. reflexivity.
Qed.


(** ** The other methods *)

Lemma start_eq (i : Impl) (t : string) (cb : Callback) (c : bool) (w : World) :
  startSuggestionStream i t cb c w = (Normal tt, requested (job_of i) t cb c w).
Proof.
  destruct i, c, w as [[h|] m hp tm n q tr]; reflexivity.
Qed.

Lemma final_check_eq (data : JSValue) (w : World) :
  try_catch
    (final ← read_final data;
     if truthy final then stopSuggestionStream else skip)
    (λ _, skip) w
  = (Normal tt, final_checked data w).
Proof.
  unfold try_catch, mbind, JS_bind, final_checked.
  destruct data; cbn; try reflexivity;
    match goal with
    | |- context [if ?b then _ else _] => destruct b
    end; rewrite ?stop_eq; reflexivity.
Qed.

Lemma onmessage_parsed (t : string) (data : JSValue) (w : World) :
  onmessage t (Parsed data) w = (Normal tt, received t data w).
Proof.
  pose proof (final_check_eq data) as Hf.
  unfold onmessage, received.
  unfold try_catch, mbind, JS_bind in *. cbn.
  unfold callbacks_get.
  destruct (suggestionCallbacks w !! t) as [cb|]; cbn.
  - unfold invoke. destruct (cb_throws cb data); [reflexivity|].
    apply Hf.
  - apply Hf.
Qed.

Lemma received_trace (t : string) (v : JSValue) (w : World) :
  trace (received t v w)
  = trace w ++ match suggestionCallbacks w !! t with
               | Some cb => [(cb_id cb, v)]
               | None => []
               end.
Proof.
  unfold received, final_checked.
  destruct (suggestionCallbacks w !! t) as [cb|];
    [destruct (cb_throws cb v)|]; cbn; rewrite ?app_nil_r;
    destruct v; cbn; auto; destruct (truthy _); auto.
Qed.

Lemma run_job_eq (j : Job) (w : World) :
  run_job j w = (Normal tt, job_done j w).
Proof.
  destruct j as [t [h|]|t [h|]|[]]; cbn;
    unfold Frontend.resume, Mobile.then_reaction, Mobile.catch_reaction,
      try_catch, throw; cbn; rewrite ?stop_eq; reflexivity.
Qed.

(** ** The microtask queue *)

Lemma queue_weight_app (q1 q2 : list Job) :
  queue_weight (q1 ++ q2) = (queue_weight q1 + queue_weight q2)%nat.
Proof.
  induction q1 as [|j q1 IH]; cbn; [reflexivity|].
  unfold queue_weight in *. rewrite IH. lia.
Qed.

Lemma job_done_weight (j : Job) (q : list Job) (w : World) :
  (S (queue_weight (jobs (job_done j (with_jobs q w)))) ≤ queue_weight (j :: q))%nat.
Proof.
  destruct j as [t [h|]|t [h|]|[]];
    unfold job_done, attached, stopped, with_jobs; cbn [jobs];
    rewrite ?queue_weight_app; unfold queue_weight; cbn; lia.
Qed.

Lemma drain_cons (n : nat) (w : World) (j : Job) (q : list Job) :
  jobs w = j :: q →
  drain (S n) w = drain n (job_done j (with_jobs q w)).
Proof.
  intros Hq. cbn. rewrite Hq. unfold exec. now rewrite run_job_eq.
Qed.

Lemma drain_nil (n : nat) (w : World) : jobs w = [] → drain n w = w.
Proof. intros Hq. destruct n; cbn; [reflexivity|]. now rewrite Hq. Qed.

(** A property kept by every job is kept by the whole queue. *)
Lemma drain_ind (P : World → Prop) :
  (∀ w j q, jobs w = j :: q → P w → P (job_done j (with_jobs q w))) →
  ∀ n w, P w → P (drain n w).
Proof.
  intros Hjob n. induction n as [|n IH]; intros w Hw; [exact Hw|].
  destruct (jobs w) as [|j q] eqn:Hq.
  - now rewrite drain_nil.
  - rewrite (drain_cons _ _ _ _ Hq). apply IH. now apply Hjob.
Qed.

(** With fuel for its weight the queue is run to the end, and more fuel
    changes nothing. *)
Lemma drain_fuel (n m : nat) (w : World) :
  (queue_weight (jobs w) ≤ n)%nat → (queue_weight (jobs w) ≤ m)%nat →
  drain n w = drain m w.
Proof.
  revert m w. induction n as [|n IH]; intros m w Hn Hm.
  - destruct (jobs w) as [|j q] eqn:Hq.
    + now rewrite !drain_nil.
    + destruct j; cbn in Hn; lia.
  - destruct (jobs w) as [|j q] eqn:Hq.
    + now rewrite !drain_nil.
    + pose proof (job_done_weight j q w) as Hw.
      destruct m as [|m]; [destruct j; cbn in Hm; lia|].
      rewrite !(drain_cons _ _ _ _ Hq). apply IH; lia.
Qed.

Lemma drain_enough (n : nat) (w : World) :
  (queue_weight (jobs w) ≤ n)%nat →
  jobs (drain n w) = [] ∧ drain n w = checkpoint w.
Proof.
  intros Hn. split; [|apply drain_fuel; [exact Hn|lia]].
  revert w Hn. induction n as [|n IH]; intros w Hn.
  - destruct (jobs w) as [|j q] eqn:Hq; [exact Hq|].
    destruct j; cbn in Hn; lia.
  - destruct (jobs w) as [|j q] eqn:Hq.
    + now rewrite drain_nil.
    + pose proof (job_done_weight j q w) as Hw.
      rewrite (drain_cons _ _ _ _ Hq). apply IH. lia.
Qed.

Lemma checkpoint_jobs (w : World) : jobs (checkpoint w) = [].
Proof. apply (drain_enough (queue_weight (jobs w)) w). lia. Qed.

Lemma checkpoint_nil (w : World) : jobs w = [] → checkpoint w = w.
Proof. intros Hq. unfold checkpoint. now apply drain_nil. Qed.

Lemma checkpoint_cons (w : World) (j : Job) (q : list Job) :
  jobs w = j :: q →
  checkpoint w = checkpoint (job_done j (with_jobs q w)).
Proof.
  intros Hq. pose proof (job_done_weight j q w) as Hw.
  unfold checkpoint at 1. rewrite Hq.
  destruct (queue_weight (j :: q)) as [|m] eqn:Hm; [lia|].
  rewrite (drain_cons _ _ _ _ Hq).
  apply drain_enough. lia.
Qed.

Lemma checkpoint_ind (P : World → Prop) :
  (∀ w j q, jobs w = j :: q → P w → P (job_done j (with_jobs q w))) →
  ∀ w, P w → P (checkpoint w).
Proof. intros Hjob w. apply drain_ind, Hjob. Qed.

Lemma checkpoint_trace (w : World) : trace (checkpoint w) = trace w.
Proof.
  apply (checkpoint_ind (λ w', trace w' = trace w)); [|reflexivity].
  intros w' j q _ <-. destruct j as [t [h|]|t [h|]|[]]; reflexivity.
Qed.

Lemma checkpoint_now (w : World) : now (checkpoint w) = now w.
Proof.
  apply (checkpoint_ind (λ w', now w' = now w)); [|reflexivity].
  intros w' j q _ <-. destruct j as [t [h|]|t [h|]|[]]; reflexivity.
Qed.


Lemma checkpoint_timers (w : World) :
  ∃ new, timers (checkpoint w) = timers w ++ new.
Proof.
  apply (checkpoint_ind (λ w', ∃ new, timers w' = timers w ++ new)).
  - intros w' j q _ [new Hnew].
    destruct j as [t [h|]|t [h|]|[]]; cbn; rewrite Hnew;
      first [ now exists new
            | rewrite <- app_assoc; eexists; reflexivity ].
  - exists []. now rewrite app_nil_r.
Qed.

Lemma checkpoint_no_callbacks (w : World) :
  suggestionCallbacks w = ∅ → suggestionCallbacks (checkpoint w) = ∅.
Proof.
  intros Hw.
  apply (checkpoint_ind (λ w', suggestionCallbacks w' = ∅)); [|exact Hw].
  intros w' j q _ Hw'. destruct j as [t [h|]|t [h|]|[]]; cbn; done.
Qed.

(** ** Timers *)

Lemma fire_eq (due : list N) (w : World) :
  foldl (λ w' _, exec ontimeout w') w due
  = match due with [] => w | _ => stopped w end.
Proof.
  destruct due as [|d due]; [reflexivity|]. cbn.
  unfold ontimeout. rewrite exec_stop.
  generalize (stopped w) (stopped_stopped w). clear d.
  induction due as [|d due IH]; intros w' Hw'; [reflexivity|].
  cbn. rewrite exec_stop, Hw'. now apply IH.
Qed.

Lemma advance_now (ms : N) (w : World) : now (advance ms w) = now w + ms.
Proof. reflexivity. Qed.

Lemma advance_trace (ms : N) (w : World) : trace (advance ms w) = trace w.
Proof.
  unfold advance. rewrite fire_eq.
  destruct (filter _ (timers w)); reflexivity.
Qed.

Lemma advance_timers (ms : N) (w : World) :
  timers (advance ms w)
  = filter (λ d, is_due (now w + ms) d = false) (timers w).
Proof.
  unfold advance. rewrite fire_eq.
  destruct (filter (λ d, is_due (now w + ms) d = true) (timers w)); reflexivity.
Qed.

Lemma advance_no_callbacks (ms : N) (w : World) :
  suggestionCallbacks w = ∅ → suggestionCallbacks (advance ms w) = ∅.
Proof.
  intros Hw. unfold advance. rewrite fire_eq.
  destruct (filter (λ d, is_due (now w + ms) d = true) (timers w)); done.
Qed.

(** A timer that comes due leaves the service idle. *)
Lemma advance_fires (ms d : N) (w : World) :
  d ∈ timers w → d ≤ now w + ms → idle (advance ms w).
Proof.
  intros Hin Hdue. unfold advance. rewrite fire_eq.
  assert (d ∈ filter (λ d, is_due (now w + ms) d = true) (timers w)) as Hd.
  { apply list_elem_of_filter. split; [|exact Hin].
    unfold is_due. now apply N.leb_le. }
  destruct (filter (λ d, is_due (now w + ms) d = true) (timers w)).
  - now apply elem_of_nil in Hd.
  - split; reflexivity.
Qed.

(** ** Single steps *)

Lemma step_start (i : Impl) (t : string) (cb : Callback) (c : bool) (w : World) :
  step i (CallStart t cb c) w = requested (job_of i) t cb c w.
Proof. cbn. unfold exec. now rewrite start_eq. Qed.

Lemma step_stop (i : Impl) (w : World) : step i CallStop w = stopped w.
Proof. apply exec_stop. Qed.

Lemma dispatch_message_trace_silent (h : nat) (p : Payload) (w : World) :
  suggestionCallbacks w = ∅ →
  suggestionCallbacks (dispatch_message h p w) = ∅
  ∧ trace (dispatch_message h p w) = trace w.
Proof.
  intros Hw. unfold dispatch_message.
  destruct (heap w !! h) as [o|]; [|done].
  destruct (es_closed o); [done|].
  destruct (es_onmessage o) as [t|]; [|done].
  destruct p as [|data]; [done|].
  unfold exec. rewrite onmessage_parsed. cbn.
  unfold received. rewrite Hw, lookup_empty.
  unfold final_checked.
  destruct data; try done; destruct (truthy _); done.
Qed.

Lemma dispatch_error_trace (h : nat) (w : World) :
  trace (dispatch_error h w) = trace w.
Proof.
  unfold dispatch_error. destruct (heap w !! h) as [o|]; [|done].
  destruct (es_onerror o); [|done]. unfold onerror. now rewrite exec_stop.
Qed.

Lemma dispatch_error_no_callbacks (h : nat) (w : World) :
  suggestionCallbacks w = ∅ → suggestionCallbacks (dispatch_error h w) = ∅.
Proof.
  intros Hw. unfold dispatch_error. destruct (heap w !! h) as [o|]; [|done].
  destruct (es_onerror o); [|done]. unfold onerror. now rewrite exec_stop.
Qed.

(** Once the registry is empty, nothing but a new [startSuggestionStream]
    makes the service call a callback again. *)
Lemma step_silent (i : Impl) (e : Event) (w : World) :
  not_start e → suggestionCallbacks w = ∅ →
  suggestionCallbacks (step i e w) = ∅ ∧ trace (step i e w) = trace w.
Proof.
  intros He Hw. destruct e as [t cb c| | |h p|h|ms]; cbn [step].
  - destruct He.
  - rewrite exec_stop. done.
  - now rewrite checkpoint_trace, checkpoint_no_callbacks.
  - destruct (dispatch_message_trace_silent h p (checkpoint w)) as [H1 H2].
    { now apply checkpoint_no_callbacks. }
    now rewrite H1, H2, checkpoint_trace.
  - rewrite dispatch_error_trace, checkpoint_trace.
    split; [|reflexivity].
    now apply dispatch_error_no_callbacks, checkpoint_no_callbacks.
  - rewrite advance_trace, checkpoint_trace. split; [|reflexivity].
    now apply advance_no_callbacks, checkpoint_no_callbacks.
Qed.

Lemma run_silent (i : Impl) (evs : list Event) (w : World) :
  Forall not_start evs → suggestionCallbacks w = ∅ →
  suggestionCallbacks (run i evs w) = ∅ ∧ trace (run i evs w) = trace w.
Proof.
  intros Hevs. revert w.
  induction Hevs as [|e evs He _ IH]; intros w Hw; [done|].
  change (run i (e :: evs) w) with (run i evs (step i e w)).
  destruct (step_silent i e w He Hw) as [H1 H2].
  destruct (IH _ H1) as [H3 H4]. split; [exact H3|now rewrite H4].
Qed.

(** ** Streams that have been closed *)

Lemma closed_at_alter (f : EventSourceObj → EventSourceObj) (k h : nat)
    (hp : list EventSourceObj) :
  (∀ o, es_closed o = true → es_closed (f o) = true) →
  es_closed <$> hp !! h = Some true →
  es_closed <$> alter f k hp !! h = Some true.
Proof.
  intros Hf Hh. destruct (decide (k = h)) as [->|Hne].
  - rewrite list_lookup_alter_eq.
    destruct (hp !! h) as [o|]; [|discriminate].
    cbn in *. injection Hh as Hh. f_equal. now apply Hf.
  - now rewrite list_lookup_alter_ne.
Qed.

(** A closed stream stays closed: nothing opens a stream again. *)
Lemma stopped_keeps_closed (h : nat) (w : World) :
  closed_at h w → closed_at h (stopped w).
Proof.
  unfold closed_at, stopped; cbn. intros H.
  destruct (eventSource w); [now apply closed_at_alter|exact H].
Qed.

Lemma stopped_closes_held (h : nat) (w : World) :
  eventSource w = Some h → is_Some (heap w !! h) → closed_at h (stopped w).
Proof.
  intros Hes [o Ho]. unfold closed_at, stopped; cbn.
  now rewrite Hes, list_lookup_alter_eq, Ho.
Qed.

Lemma attached_keeps_closed (t : string) (k h : nat) (w : World) :
  closed_at h w → closed_at h (attached t k w).
Proof.
  unfold closed_at, attached; cbn. intros H. now apply closed_at_alter.
Qed.

Lemma job_done_keeps_closed (j : Job) (q : list Job) (h : nat) (w : World) :
  closed_at h w → closed_at h (job_done j (with_jobs q w)).
Proof.
  intros H.
  destruct j as [t [k|]|t [k|]|[]]; cbn [job_done].
  - now apply attached_keeps_closed.
  - now apply stopped_keeps_closed.
  - now apply (attached_keeps_closed t k h (with_jobs q w)).
  - exact H.
  - now apply stopped_keeps_closed.
  - exact H.
Qed.

Lemma checkpoint_keeps_closed (h : nat) (w : World) :
  closed_at h w → closed_at h (checkpoint w).
Proof.
  intros H. apply (checkpoint_ind (closed_at h)); [|exact H].
  intros w' j q _. apply job_done_keeps_closed.
Qed.

Lemma requested_keeps_closed (mk : string → option nat → Job) (t : string)
    (cb : Callback) (c : bool) (h : nat) (w : World) :
  closed_at h w → closed_at h (requested mk t cb c w).
Proof.
  intros H.
  assert (es_closed <$> match eventSource w with
                        | Some k => alter close_obj k (heap w)
                        | None => heap w
                        end !! h = Some true) as Hhp.
  { destruct (eventSource w); [now apply closed_at_alter|exact H]. }
  unfold closed_at, requested; cbn. destruct c; [|exact Hhp].
  destruct (_ !! h) as [o|] eqn:Ho in Hhp; [|discriminate].
  now rewrite (lookup_app_l_Some _ _ _ _ Ho).
Qed.

Lemma received_keeps_closed (t : string) (v : JSValue) (h : nat) (w : World) :
  closed_at h w → closed_at h (received t v w).
Proof.
  intros H. unfold received, final_checked.
  destruct (suggestionCallbacks w !! t) as [cb|];
    [destruct (cb_throws cb v)|]; try exact H;
    destruct v; try exact H;
    destruct (truthy _); try exact H;
    now apply stopped_keeps_closed.
Qed.

Lemma step_keeps_closed (i : Impl) (e : Event) (h : nat) (w : World) :
  closed_at h w → closed_at h (step i e w).
Proof.
  intros H. destruct e as [t cb c| | |k p|k|ms]; cbn [step].
  - unfold exec. rewrite start_eq. now apply requested_keeps_closed.
  - rewrite exec_stop. now apply stopped_keeps_closed.
  - now apply checkpoint_keeps_closed.
  - apply checkpoint_keeps_closed in H. unfold dispatch_message.
    destruct (heap (checkpoint w) !! k) as [o|]; [|exact H].
    destruct (es_closed o); [exact H|].
    destruct (es_onmessage o) as [t|]; [|exact H].
    destruct p as [|v]; [exact H|].
    unfold exec. rewrite onmessage_parsed. now apply received_keeps_closed.
  - apply checkpoint_keeps_closed in H. unfold dispatch_error.
    destruct (heap (checkpoint w) !! k) as [o|]; [|exact H].
    destruct (es_onerror o); [|exact H].
    unfold onerror. rewrite exec_stop. now apply stopped_keeps_closed.
  - apply checkpoint_keeps_closed in H. unfold advance. rewrite fire_eq.
    destruct (filter _ (timers (checkpoint w))); [exact H|].
    unfold closed_at. cbn [heap with_now].
    apply stopped_keeps_closed. exact H.
Qed.

Lemma run_keeps_closed (i : Impl) (evs : list Event) (h : nat) (w : World) :
  closed_at h w → closed_at h (run i evs w).
Proof.
  revert w. induction evs as [|e evs IH]; intros w H; [exact H|].
  change (run i (e :: evs) w) with (run i evs (step i e w)).
  now apply IH, step_keeps_closed.
Qed.

Lemma requested_closes_held (mk : string → option nat → Job) (t : string)
    (cb : Callback) (c : bool) (h : nat) (w : World) :
  eventSource w = Some h → is_Some (heap w !! h) →
  closed_at h (requested mk t cb c w).
Proof.
  intros Hes [o Ho]. unfold closed_at, requested; cbn. rewrite Hes.
  assert (alter close_obj h (heap w) !! h = Some (close_obj o)) as Hc.
  { now rewrite list_lookup_alter_eq, Ho. }
  destruct c; [rewrite (lookup_app_l_Some _ _ _ _ Hc)|rewrite Hc];
    reflexivity.
Qed.

Lemma stopped_closes_kept (h : nat) (w : World) :
  kept_or_closed h w → closed_at h (stopped w).
Proof.
  intros [H|(Hes & _ & Hh)];
    [now apply stopped_keeps_closed|now apply stopped_closes_held].
Qed.

(** A message for a stream that has been closed is not delivered: its
    task does nothing beyond the microtask checkpoint that precedes it. *)
Lemma closed_message_is_dropped (i : Impl) (h : nat) (p : Payload) (w : World) :
  closed_at h w → step i (Message h p) w = checkpoint w.
Proof.
  intros H. apply checkpoint_keeps_closed in H. cbn [step].
  unfold dispatch_message. unfold closed_at in H.
  destruct (heap (checkpoint w) !! h) as [o|]; [|reflexivity].
  cbn in H. injection H as ->. reflexivity.
Qed.

(** A stream the manager holds between tasks is closed before the
    manager lets go of it. *)
Lemma step_kept_or_closed (i : Impl) (e : Event) (h : nat) (w : World) :
  kept_or_closed h w → kept_or_closed h (step i e w).
Proof.
  intros [H|(Hes & Hq & Hh)]; [left; now apply step_keeps_closed|].
  assert (closed_at h (stopped w)) as Hstop by now apply stopped_closes_held.
  destruct e as [t cb c| | |k p|k|ms]; cbn [step]; rewrite ?(checkpoint_nil _ Hq).
  - left. unfold exec. rewrite start_eq. now apply requested_closes_held.
  - left. now rewrite exec_stop.
  - right. auto.
  - unfold dispatch_message.
    destruct (heap w !! k) as [o|]; [|right; auto].
    destruct (es_closed o); [right; auto|].
    destruct (es_onmessage o) as [t|]; [|right; auto].
    destruct p as [|v]; [right; auto|].
    unfold exec. rewrite onmessage_parsed. cbn [snd].
    unfold received, final_checked.
    destruct (suggestionCallbacks w !! t) as [cb|];
      [destruct (cb_throws cb v)|]; try (right; now auto);
      destruct v; try (right; now auto);
      destruct (truthy _); try (right; now auto);
      left; exact Hstop.
  - unfold dispatch_error.
    destruct (heap w !! k) as [o|]; [|right; auto].
    destruct (es_onerror o); [|right; auto].
    left. unfold onerror. now rewrite exec_stop.
  - unfold advance. rewrite fire_eq.
    destruct (filter _ (timers w)); [right; now auto|].
    left. exact Hstop.
Qed.

Lemma run_kept_or_closed (i : Impl) (evs : list Event) (h : nat) (w : World) :
  kept_or_closed h w → kept_or_closed h (run i evs w).
Proof.
  revert w. induction evs as [|e evs IH]; intros w H; [exact H|].
  change (run i (e :: evs) w) with (run i evs (step i e w)).
  now apply IH, step_kept_or_closed.
Qed.

Lemma is_Some_alter (f : EventSourceObj → EventSourceObj) (k h : nat)
    (hp : list EventSourceObj) :
  is_Some (hp !! h) → is_Some (alter f k hp !! h).
Proof.
  intros [o Ho]. destruct (decide (k = h)) as [->|Hne].
  - rewrite list_lookup_alter_eq, Ho. cbn. eauto.
  - rewrite list_lookup_alter_ne, Ho by exact Hne. eauto.
Qed.

Lemma job_done_attaching (j j' : Job) (q : list Job) (t : string) (h : nat)
    (w : World) :
  j = AwaitResume t (Some h) ∨ j = ThenReaction t (Some h) →
  jobs w = j' :: q →
  attaching j h w → attaching j h (job_done j' (with_jobs q w)).
Proof.
  intros Hj Hq [Hh Hcase]. split.
  { destruct j' as [t' [k|]|t' [k|]|[]]; cbn;
      try (destruct (eventSource w));
      try apply is_Some_alter; exact Hh. }
  destruct Hcase as [(q1 & q2 & Hjobs & Hq2)|[Hall Hheld]].
  - rewrite Hq in Hjobs. destruct q1 as [|j1 q1]; cbn in Hjobs;
      injection Hjobs as -> ->.
    + right. destruct Hj as [->| ->]; cbn.
      * split; [exact Hq2|now right].
      * split; [|now right].
        apply Forall_app. split; [exact Hq2|]. now repeat constructor.
    + left. destruct j1 as [t' [k|]|t' [k|]|[]]; cbn.
      1,2,5,6: exists q1, q2; split; [reflexivity|exact Hq2].
      all: eexists q1, (q2 ++ [_]); (split; [now rewrite <- app_assoc|]);
        apply Forall_app; split; [exact Hq2|]; now repeat constructor.
  - right. rewrite Hq in Hall. apply Forall_cons in Hall as [Hj' Hall].
    destruct j' as [t' p'|t' p'|[]]; try destruct Hj'; cbn.
    + split; [exact Hall|]. left.
      destruct Hheld as [Hc|Hes];
        [now apply (stopped_keeps_closed h (with_jobs q w))
        |now apply (stopped_closes_held h (with_jobs q w))].
    + split; [exact Hall|exact Hheld].
Qed.

(** The stream a successful [startSuggestionStream] creates is held by
    the manager when the task of the call has ended, unless it has been
    closed by then. *)
Lemma start_kept_or_closed (i : Impl) (t : string) (cb : Callback) (w : World) :
  kept_or_closed (length (heap w)) (run i [CallStart t cb true; EndOfTask] w).
Proof.
  change (run i [CallStart t cb true; EndOfTask] w)
    with (checkpoint (step i (CallStart t cb true) w)).
  rewrite step_start.
  set (h := length (heap w)).
  set (j := job_of i t (Some h)).
  assert (length match eventSource w with
                 | Some k => alter close_obj k (heap w)
                 | None => heap w
                 end = h) as Hlen.
  { destruct (eventSource w); [apply length_alter|reflexivity]. }
  assert (attaching j h (checkpoint (requested (job_of i) t cb true w))) as [Hh Hc].
  { apply (checkpoint_ind (attaching j h)).
    - intros w' j' q Hq. apply (job_done_attaching j j' q t h w'); [|exact Hq].
      subst j. destruct i; auto.
    - split.
      + unfold requested; cbn. rewrite lookup_app_r, Hlen, Nat.sub_diag by lia.
        cbn. eauto.
      + left. exists (jobs w), []. split; [|constructor].
        unfold requested; cbn. rewrite Hlen. reflexivity. }
  rewrite checkpoint_jobs in Hc.
  destruct Hc as [(q1 & q2 & Hq & _)|[_ [Hc|Hes]]].
  - now destruct q1.
  - now left.
  - right. split; [exact Hes|]. split; [apply checkpoint_jobs|exact Hh].
Qed.

(** * The claims *)

(** ** C9: [stop()] is idempotent *)

(** C9. [stopSuggestionStream()] never throws; called on an idle manager
    (no stream held, empty registry) it leaves the whole world as it was;
    and calling it any number of times in a row, at least once, gives the
    world one call gives. *)
Theorem stop_is_idempotent (w : World) (n : nat) :
  fst (stopSuggestionStream w) = Normal tt
  ∧ (idle w → exec stopSuggestionStream w = w)
  ∧ Nat.iter (S n) (exec stopSuggestionStream) w = exec stopSuggestionStream w.
Proof.
  split; [now rewrite stop_eq|]. split.
  - intros Hidle. rewrite exec_stop. now apply stopped_of_idle.
  - induction n as [|n IH]; [reflexivity|].
    change (Nat.iter (S (S n)) (exec stopSuggestionStream) w)
      with (exec stopSuggestionStream (Nat.iter (S n) (exec stopSuggestionStream) w)).
    rewrite IH, !exec_stop. apply stopped_stopped.
Qed.

Lemma stop_is_idempotent_witness :
  fst (stopSuggestionStream init) = Normal tt
  ∧ exec stopSuggestionStream init = init
  ∧ Nat.iter 3 (exec stopSuggestionStream) init = exec stopSuggestionStream init.
Proof.
  destruct (stop_is_idempotent init 2) as (H1 & H2 & H3).
  split; [exact H1|]. split; [|exact H3].
  apply H2. split; reflexivity.
Defined.

(** ** C7: messages that cannot be decoded *)

(** C7, as amended.  A message whose data is not JSON text, so that
    [JSON.parse] throws, is dropped: the handler returns normally and
    leaves the world untouched, and the delivery of the message does
    nothing beyond the microtask checkpoint that precedes it.  Data that
    is JSON text is not checked against the shape of an event: the value
    it denotes is passed to the callback registered under the thread of
    the handler, and the handler returns normally. *)
Theorem unparsable_is_dropped (i : Impl) (w : World) (h : nat) (t : string)
    (v : JSValue) :
  onmessage t Unparsable w = (Normal tt, w)
  ∧ step i (Message h Unparsable) w = checkpoint w
  ∧ fst (onmessage t (Parsed v) w) = Normal tt
  ∧ trace (exec (onmessage t (Parsed v)) w)
    = trace w ++ match suggestionCallbacks w !! t with
                 | Some cb => [(cb_id cb, v)]
                 | None => []
                 end.
Proof.
  split; [reflexivity|]. split; [|split].
  - cbn [step]. unfold dispatch_message.
    destruct (heap (checkpoint w) !! h) as [o|]; [|reflexivity].
    destruct (es_closed o), (es_onmessage o); reflexivity.
  - now rewrite onmessage_parsed.
  - unfold exec. rewrite onmessage_parsed. apply received_trace.
Qed.

(** C7, as written, fails.  The final message in the form the API
    document gives it has no [event] member, so it is not of the shape
    [SuggestionEvent]; the handler still passes it to the callback and
    tears the session down. *)
Lemma shapeless_message_is_forwarded :
  is_SuggestionEvent documented_final = false
  ∧ (let w := run frontend [CallStart "t1" cb1 true; EndOfTask] init in
     trace (step frontend (Message 0%nat (Parsed documented_final)) w)
       = [(1%nat, documented_final)]
     ∧ has_stream w = true
     ∧ has_stream (step frontend (Message 0%nat (Parsed documented_final)) w) = false)
  ∧ ¬ drops_malformed frontend
  ∧ ¬ drops_malformed mobile.
Proof.
  split; [reflexivity|]. split; [repeat split; reflexivity|].
  split; intros H.
  - specialize (H [CallStart "t1" cb1 true; EndOfTask] 0%nat
                  (Parsed documented_final) eq_refl eq_refl).
    apply (f_equal has_stream) in H. vm_compute in H. discriminate.
  - specialize (H [CallStart "t1" cb1 true; EndOfTask] 0%nat
                  (Parsed documented_final) eq_refl eq_refl).
    apply (f_equal has_stream) in H. vm_compute in H. discriminate.
Qed.

(** ** C5: the final event *)

(** Where the callback returns, the final event does what the claim
    says.  Let [h] be the open stream the manager holds, with the handler
    of thread [t] on it, [cb] the callback registered under [t], and [v] a
    decoded event whose [final] is [true], on which [cb] returns.  The
    delivery of [v] calls [cb] once, with [v], and then does what
    [stopSuggestionStream()] does: the stream is closed, the registry is
    empty, no stream is held.  Whatever happens afterwards, a new
    [startSuggestionStream] included, a message that arrives for [h] is
    not delivered; and short of a new [startSuggestionStream] no callback
    is called at all. *)
Lemma final_event_tears_down (i : Impl) (w : World) (h : nat)
    (o : EventSourceObj) (t : string) (cb : Callback) (v : JSValue)
    (evs : list Event) (p : Payload) :
  jobs w = [] →
  eventSource w = Some h →
  heap w !! h = Some o →
  es_closed o = false →
  es_onmessage o = Some t →
  suggestionCallbacks w !! t = Some cb →
  cb_throws cb v = false →
  get_prop "final" v = Some (JBool true) →
  let w' := step i (Message h (Parsed v)) w in
  trace w' = trace w ++ [(cb_id cb, v)]
  ∧ w' = exec stopSuggestionStream (with_trace (trace w ++ [(cb_id cb, v)]) w)
  ∧ idle w'
  ∧ es_closed <$> heap w' !! h = Some true
  ∧ step i (Message h p) (run i evs w') = checkpoint (run i evs w')
  ∧ (Forall not_start evs → trace (run i evs w') = trace w').
Proof.
  intros Hq Hes Hh Hopen Ho Hcb Hthrow Hfinal w'.
  assert (w' = stopped (with_trace (trace w ++ [(cb_id cb, v)]) w)) as Hw'.
  { subst w'. cbn [step]. rewrite (checkpoint_nil _ Hq).
    unfold dispatch_message. rewrite Hh, Hopen, Ho.
    unfold exec. rewrite onmessage_parsed. cbn [snd].
    unfold received. rewrite Hcb. cbn zeta. rewrite Hthrow.
    unfold final_checked.
    destruct v; try discriminate Hfinal.
    now rewrite Hfinal. }
  assert (closed_at h w') as Hclosed.
  { rewrite Hw'. apply stopped_closes_held; [exact Hes|]. cbn. eauto. }
  rewrite exec_stop. rewrite Hw' in *.
  split; [reflexivity|]. split; [reflexivity|].
  split; [apply stopped_idle|]. split; [exact Hclosed|]. split.
  - apply closed_message_is_dropped. now apply run_keeps_closed.
  - intros Hevs. apply run_silent; [exact Hevs|reflexivity].
Qed.

(** Where the callback throws, nothing follows the call: the handler
    catches the exception and returns without having looked at [final].
    The world is as it was but for the record of the call; the stream is
    still open and held, the callback still registered, and the next
    message is passed to it as well. *)
Lemma throwing_callback_keeps_session (i : Impl) (w : World) (h : nat)
    (o : EventSourceObj) (t : string) (cb : Callback) (v v' : JSValue) :
  jobs w = [] →
  heap w !! h = Some o →
  es_closed o = false →
  es_onmessage o = Some t →
  suggestionCallbacks w !! t = Some cb →
  cb_throws cb v = true →
  let w' := step i (Message h (Parsed v)) w in
  w' = with_trace (trace w ++ [(cb_id cb, v)]) w
  ∧ trace (step i (Message h (Parsed v')) w')
    = trace w ++ [(cb_id cb, v); (cb_id cb, v')].
Proof.
  intros Hq Hh Hopen Ho Hcb Hthrow w'.
  assert (w' = with_trace (trace w ++ [(cb_id cb, v)]) w) as Hw'.
  { subst w'. cbn [step]. rewrite (checkpoint_nil _ Hq).
    unfold dispatch_message. rewrite Hh, Hopen, Ho.
    unfold exec. rewrite onmessage_parsed. cbn [snd].
    unfold received. rewrite Hcb. cbn zeta. now rewrite Hthrow. }
  split; [exact Hw'|]. rewrite Hw'. cbn [step].
  rewrite checkpoint_nil by exact Hq.
  unfold dispatch_message. cbn [heap with_trace]. rewrite Hh, Hopen, Ho.
  unfold exec. rewrite onmessage_parsed. cbn [snd]. rewrite received_trace.
  cbn [suggestionCallbacks trace with_trace]. rewrite Hcb.
  now rewrite <- app_assoc.
Qed.

(** C5, evaluated where it fails.  A session is started with a callback
    that throws, and the final event arrives.  The callback is called
    with it, once; the exception is caught by the handler, which returns
    without the test of [final]: the stream is still open and held, the
    callback is still registered, and the message that arrives next is
    passed to it.  So in both classes. *)
Theorem final_event_is_lost_on_throw :
  (∀ i : Impl,
     let w := run i [CallStart "t1" cb3 true; EndOfTask] init in
     let w' := step i (Message 0%nat (Parsed final_abc)) w in
     trace w' = [(3%nat, final_abc)]
     ∧ eventSource w' = Some 0%nat
     ∧ es_closed <$> heap w' !! 0%nat = Some false
     ∧ suggestionCallbacks w' !! "t1" = Some cb3
     ∧ trace (step i (Message 0%nat (Parsed update_ab)) w')
       = [(3%nat, final_abc); (3%nat, update_ab)])
  ∧ ¬ final_tears_down frontend
  ∧ ¬ final_tears_down mobile.
Proof.
  split.
  - intros i. cbv zeta. destruct i; repeat split; reflexivity.
  - split; intros H;
      destruct (H [CallStart "t1" cb3 true; EndOfTask] 0%nat
                  {| es_thread := "t1"; es_closed := false;
                     es_onmessage := Some "t1"; es_onerror := true |}
                  "t1" cb3 final_abc
                  eq_refl eq_refl eq_refl eq_refl eq_refl eq_refl eq_refl)
        as [_ H2];
      apply (f_equal has_stream) in H2; vm_compute in H2; discriminate.
Qed.

(** ** C8: the stream cannot be created *)

Lemma close_twice (h : nat) (hp : list EventSourceObj) :
  alter close_obj h (alter close_obj h hp) = alter close_obj h hp.
Proof.
  apply list_eq; intros j. destruct (decide (h = j)) as [->|Hne].
  - rewrite !list_lookup_alter_eq. destruct (hp !! j); reflexivity.
  - now rewrite !list_lookup_alter_ne.
Qed.





(** ** C3: the callback registry *)

Lemma received_callbacks (t : string) (v : JSValue) (w : World) :
  suggestionCallbacks (received t v w) = ∅
  ∨ suggestionCallbacks (received t v w) = suggestionCallbacks w.
Proof.
  unfold received, final_checked.
  destruct (suggestionCallbacks w !! t) as [cb|];
    [destruct (cb_throws cb v)|]; cbn;
    destruct v; cbn; auto; destruct (truthy _); auto.
Qed.

Lemma checkpoint_callbacks (w : World) :
  suggestionCallbacks (checkpoint w) = ∅
  ∨ suggestionCallbacks (checkpoint w) = suggestionCallbacks w.
Proof.
  apply (checkpoint_ind
    (λ w', suggestionCallbacks w' = ∅
           ∨ suggestionCallbacks w' = suggestionCallbacks w)); [|now right].
  intros w' j q _ Hw'.
  destruct j as [t [h|]|t [h|]|[]]; cbn; auto.
Qed.

(** C3, as amended.  [startSuggestionStream(threadId, cb)] sets the entry
    under [threadId] and leaves every other entry as it is.  Entries go
    only when the whole registry is cleared, which is what
    [stopSuggestionStream()] does: every step of the manager either keeps
    the registry, adds the entry of the call, or empties it. *)
Theorem start_keeps_other_entries (i : Impl) (w : World) (e : Event) :
  (∀ t cb c,
     suggestionCallbacks (step i (CallStart t cb c) w)
     = <[t := cb]> (suggestionCallbacks w))
  ∧ (∀ t cb c k, k ≠ t →
     suggestionCallbacks (step i (CallStart t cb c) w) !! k
     = suggestionCallbacks w !! k)
  ∧ suggestionCallbacks (step i CallStop w) = ∅
  ∧ (suggestionCallbacks (step i e w) = ∅
     ∨ suggestionCallbacks (step i e w) = suggestionCallbacks w
     ∨ ∃ t cb c, e = CallStart t cb c).
Proof.
  split; [intros t cb c; now rewrite step_start|].
  split; [intros t cb c k Hk; rewrite step_start; cbn;
          now rewrite lookup_insert_ne|].
  split; [now rewrite step_stop|].
  destruct e as [t cb c| | |h p|h|ms]; cbn [step].
  - right; right. eauto.
  - left. now rewrite exec_stop.
  - destruct (checkpoint_callbacks w); auto.
  - unfold dispatch_message.
    destruct (checkpoint_callbacks w) as [H|H];
      destruct (heap (checkpoint w) !! h) as [o|]; auto;
      destruct (es_closed o); auto;
      destruct (es_onmessage o) as [t|]; auto;
      (destruct p as [|v]; [auto|]);
      unfold exec; rewrite onmessage_parsed; cbn [snd];
      destruct (received_callbacks t v (checkpoint w)) as [H'|H']; auto;
      rewrite H'; auto.
  - unfold dispatch_error.
    destruct (checkpoint_callbacks w) as [H|H];
      destruct (heap (checkpoint w) !! h) as [o|]; auto;
      destruct (es_onerror o); auto; left; unfold onerror;
      now rewrite exec_stop.
  - destruct (checkpoint_callbacks w) as [H|H].
    + left. now apply advance_no_callbacks.
    + unfold advance. rewrite fire_eq.
      destruct (filter _ (timers (checkpoint w))); cbn; auto.
Qed.

Lemma start_keeps_other_entries_witness :
  let w := run frontend [CallStart "t1" cb1 true; EndOfTask] init in
  suggestionCallbacks (step frontend (CallStart "t2" cb2 true) w) !! "t1"
  = Some cb1.
Proof.
  cbv zeta.
  destruct (start_keeps_other_entries frontend
    (run frontend [CallStart "t1" cb1 true; EndOfTask] init) CallStop)
    as (_ & H & _).
  rewrite (H "t2" cb2 true "t1"); [reflexivity|discriminate].
Defined.

(** C3, as written, fails: the entry of the session that went before is
    still there when the next one has started. *)
Lemma start_leaves_old_entry :
  suggestionCallbacks
    (run frontend ([CallStart "t1" cb1 true; EndOfTask]
                   ++ [CallStart "t2" cb2 true]) init) !! "t1" = Some cb1
  ∧ suggestionCallbacks
    (run mobile ([CallStart "t1" cb1 true; EndOfTask]
                 ++ [CallStart "t2" cb2 true]) init) !! "t1" = Some cb1
  ∧ ¬ start_clears_registry frontend
  ∧ ¬ start_clears_registry mobile.
Proof.
  split; [reflexivity|]. split; [reflexivity|].
  split; intros H;
    specialize (H [CallStart "t1" cb1 true; EndOfTask] "t2" cb2 true "t1");
    (assert ("t1" ≠ "t2") as Hne by discriminate);
    specialize (H Hne); vm_compute in H; discriminate.
Qed.

(** ** C1 and C6: the expiry timer *)

Lemma received_timers (t : string) (v : JSValue) (w : World) :
  timers (received t v w) = timers w ∧ now (received t v w) = now w.
Proof.
  unfold received, final_checked.
  destruct (suggestionCallbacks w !! t) as [cb|];
    [destruct (cb_throws cb v)|]; cbn;
    destruct v; cbn; auto; destruct (truthy _); auto.
Qed.

Lemma dispatch_message_timers (h : nat) (p : Payload) (w : World) :
  timers (dispatch_message h p w) = timers w
  ∧ now (dispatch_message h p w) = now w.
Proof.
  unfold dispatch_message.
  destruct (heap w !! h) as [o|]; [|done].
  destruct (es_closed o); [done|].
  destruct (es_onmessage o) as [t|]; [|done].
  destruct p as [|v]; [done|].
  unfold exec. rewrite onmessage_parsed. apply received_timers.
Qed.

Lemma dispatch_error_timers (h : nat) (w : World) :
  timers (dispatch_error h w) = timers w
  ∧ now (dispatch_error h w) = now w.
Proof.
  unfold dispatch_error.
  destruct (heap w !! h) as [o|]; [|done].
  destruct (es_onerror o); [|done].
  unfold onerror. now rewrite exec_stop.
Qed.

Lemma checkpoint_keeps (d : N) (w : World) :
  d ∈ timers w → d ∈ timers (checkpoint w).
Proof.
  intros Hd. destruct (checkpoint_timers w) as [new ->].
  apply elem_of_app. now left.
Qed.

(** No step takes a timer away before the clock has reached it; the step
    that does leaves the manager idle. *)
Lemma step_keeps_timer (i : Impl) (e : Event) (d : N) (w : World) :
  d ∈ timers w →
  d ∈ timers (step i e w)
  ∨ (∃ ms, e = Advance ms ∧ d ≤ now w + ms ∧ idle (step i e w)).
Proof.
  intros Hd. destruct e as [t cb c| | |h p|h|ms]; cbn [step].
  - left. unfold exec. now rewrite start_eq.
  - left. now rewrite exec_stop.
  - left. now apply checkpoint_keeps.
  - left. destruct (dispatch_message_timers h p (checkpoint w)) as [-> _].
    now apply checkpoint_keeps.
  - left. destruct (dispatch_error_timers h (checkpoint w)) as [-> _].
    now apply checkpoint_keeps.
  - apply checkpoint_keeps in Hd.
    destruct (is_due (now (checkpoint w) + ms) d) eqn:Hdue.
    + right. exists ms. unfold is_due in Hdue. apply N.leb_le in Hdue.
      split; [reflexivity|]. split; [now rewrite <- checkpoint_now|].
      now apply (advance_fires ms d).
    + left. rewrite advance_timers. apply list_elem_of_filter. now split.
Qed.

Lemma step_now (i : Impl) (e : Event) (w : World) :
  now (step i e w) = match e with Advance ms => now w + ms | _ => now w end.
Proof.
  destruct e as [t cb c| | |h p|h|ms]; cbn [step].
  - unfold exec. now rewrite start_eq.
  - now rewrite exec_stop.
  - apply checkpoint_now.
  - destruct (dispatch_message_timers h p (checkpoint w)) as [_ ->].
    apply checkpoint_now.
  - destruct (dispatch_error_timers h (checkpoint w)) as [_ ->].
    apply checkpoint_now.
  - now rewrite advance_now, checkpoint_now.
Qed.

Lemma step_now_mono (i : Impl) (e : Event) (w : World) :
  now w ≤ now (step i e w).
Proof. rewrite step_now. destruct e; lia. Qed.

Lemma run_keeps_timer (i : Impl) (evs : list Event) (d : N) (w : World) :
  d ∈ timers w → d ∈ timers (run i evs w) ∨ d ≤ now (run i evs w).
Proof.
  revert w. induction evs as [|e evs IH]; intros w Hd; [now left|].
  change (run i (e :: evs) w) with (run i evs (step i e w)).
  destruct (step_keeps_timer i e d w Hd) as [H|(ms & -> & Hdue & _)].
  - now apply IH.
  - right. clear IH Hd.
    assert (d ≤ now (step i (Advance ms) w)) as H0.
    { rewrite step_now. exact Hdue. }
    revert H0. generalize (step i (Advance ms) w). clear w Hdue.
    induction evs as [|e evs IH]; intros w Hw; [exact Hw|].
    change (run i (e :: evs) w) with (run i evs (step i e w)).
    apply IH. pose proof (step_now_mono i e w). lia.
Qed.

(** The job a successful [startSuggestionStream] leaves behind arms the
    timer when the task ends, whatever else is in the queue. *)
Lemma start_arms_timer (i : Impl) (t : string) (cb : Callback) (w : World) :
  (now w + 15000) ∈ timers (run i [CallStart t cb true; EndOfTask] w)
  ∧ now (run i [CallStart t cb true; EndOfTask] w) = now w.
Proof.
  change (run i [CallStart t cb true; EndOfTask] w)
    with (checkpoint (step i (CallStart t cb true) w)).
  rewrite step_start, checkpoint_now. split; [|reflexivity].
  set (w0 := requested (job_of i) t cb true w).
  set (hp := match eventSource w with
             | Some h => alter close_obj h (heap w)
             | None => heap w
             end).
  set (j := job_of i t (Some (length hp))).
  assert ((j ∈ jobs (checkpoint w0) ∨ (now w + 15000) ∈ timers (checkpoint w0))
          ∧ now (checkpoint w0) = now w) as [[H|H] _].
  { apply (checkpoint_ind
      (λ w', (j ∈ jobs w' ∨ (now w + 15000) ∈ timers w') ∧ now w' = now w)).
    - intros w' j' q Hq [[Hj|Hd] Hnow].
      + rewrite Hq in Hj. apply elem_of_cons in Hj as [<-|Hj].
        * split; [right|].
          -- subst j. destruct i; cbn; rewrite Hnow;
               apply elem_of_app; right; apply list_elem_of_singleton;
               reflexivity.
          -- subst j. destruct i; cbn; exact Hnow.
        * split; [left|].
          -- destruct j' as [t' [h'|]|t' [h'|]|[]]; cbn;
               rewrite ?elem_of_app; auto.
          -- destruct j' as [t' [h'|]|t' [h'|]|[]]; cbn; exact Hnow.
      + split; [right|].
        * destruct j' as [t' [h'|]|t' [h'|]|[]]; cbn;
            rewrite ?elem_of_app; auto.
        * destruct j' as [t' [h'|]|t' [h'|]|[]]; cbn; exact Hnow.
    - split; [left|reflexivity]. subst w0 j hp. cbn.
      apply elem_of_app; right. apply list_elem_of_singleton. reflexivity. }
  - rewrite checkpoint_jobs in H. now apply elem_of_nil in H.
  - exact H.
Qed.

(** A timer that comes due does to the streams what
    [stopSuggestionStream()] does. *)
Lemma advance_due_heap (ms d : N) (w : World) :
  d ∈ timers w → d ≤ now w + ms → heap (advance ms w) = heap (stopped w).
Proof.
  intros Hin Hdue. unfold advance. rewrite fire_eq.
  assert (d ∈ filter (λ d, is_due (now w + ms) d = true) (timers w)) as Hd.
  { apply list_elem_of_filter. split; [|exact Hin].
    unfold is_due. now apply N.leb_le. }
  destruct (filter (λ d, is_due (now w + ms) d = true) (timers w)).
  - now apply elem_of_nil in Hd.
  - reflexivity.
Qed.

(** C6. Let a session be started at time [now w]; its stream is the one
    at [length (heap w)], and its timer is due at [now w + 15000].
    Whatever happens next, messages included, the timer is still pending
    for as long as the clock is short of that time.  The passing of time
    that takes the clock there or beyond does to the streams what
    [stopSuggestionStream()] does and leaves the manager idle, without a
    callback being called in that step; the stream of the session is
    closed by then, and no message that arrives for it later is
    delivered. *)
Theorem timeout_forces_idle (i : Impl) (w : World) (t : string)
    (cb : Callback) (pre : list Event) (ms : N) :
  let w0 := run i [CallStart t cb true; EndOfTask] w in
  let w1 := run i pre w0 in
  now w1 < now w + 15000 →
  now w + 15000 ≤ now w1 + ms →
  let w2 := step i (Advance ms) w1 in
  (now w + 15000) ∈ timers w1
  ∧ idle w2
  ∧ trace w2 = trace w1
  ∧ now w2 = now w1 + ms
  ∧ heap w2 = heap (exec stopSuggestionStream (checkpoint w1))
  ∧ es_closed <$> heap w2 !! length (heap w) = Some true
  ∧ ∀ (evs : list Event) (p : Payload),
      step i (Message (length (heap w)) p) (run i evs w2)
      = checkpoint (run i evs w2).
Proof.
  intros w0 w1 Hbefore Hafter w2.
  destruct (start_arms_timer i t cb w) as [Harmed Hnow0]. fold w0 in Harmed, Hnow0.
  assert ((now w + 15000) ∈ timers w1) as Hpending.
  { destruct (run_keeps_timer i pre _ w0 Harmed) as [H|H]; [exact H|].
    fold w1 in H. lia. }
  assert (heap w2 = heap (stopped (checkpoint w1))) as Hheap.
  { subst w2. cbn [step]. apply (advance_due_heap ms (now w + 15000)).
    - now apply checkpoint_keeps.
    - now rewrite checkpoint_now. }
  assert (closed_at (length (heap w)) w2) as Hclosed.
  { unfold closed_at. rewrite Hheap. apply stopped_closes_kept.
    apply (step_kept_or_closed i EndOfTask).
    apply run_kept_or_closed, start_kept_or_closed. }
  split; [exact Hpending|]. split; [|split; [|split; [|split; [|split]]]].
  - subst w2. cbn [step]. apply (advance_fires ms (now w + 15000)).
    + now apply checkpoint_keeps.
    + now rewrite checkpoint_now.
  - subst w2. cbn [step]. now rewrite advance_trace, checkpoint_trace.
  - subst w2. cbn [step]. now rewrite advance_now, checkpoint_now.
  - now rewrite exec_stop.
  - exact Hclosed.
  - intros evs p. apply closed_message_is_dropped. now apply run_keeps_closed.
Qed.

Lemma timeout_forces_idle_witness :
  let w1 := run frontend [CallStart "t1" cb1 true; EndOfTask;
                          Advance 9000; Message 0%nat (Parsed update_ab);
                          Advance 5000; Message 0%nat (Parsed update_ab)] init in
  let w2 := step frontend (Advance 1000) w1 in
  has_stream w1 = true
  ∧ es_closed <$> heap w1 !! 0%nat = Some false
  ∧ idle w2
  ∧ trace w2 = trace w1
  ∧ es_closed <$> heap w2 !! 0%nat = Some true.
Proof.
  pose proof (timeout_forces_idle frontend init "t1" cb1
    [Advance 9000; Message 0%nat (Parsed update_ab);
     Advance 5000; Message 0%nat (Parsed update_ab)] 1000) as H.
  cbv zeta in H. destruct H as (_ & H2 & H3 & _ & _ & H6 & _).
  { vm_compute. reflexivity. }
  { vm_compute. discriminate. }
  cbv zeta. split; [reflexivity|]. split; [reflexivity|].
  split; [exact H2|]. split; [exact H3|exact H6].
Defined.

(** C1, as amended.  The timer is never cancelled.  A successful
    [startSuggestionStream] arms one, due 15 seconds later; it stays
    pending through every call and every notification, a teardown and a
    new session included, until the clock reaches the time it is due; the
    step that takes it away is that passing of time, and it leaves the
    manager idle, whichever session was active. *)
Theorem timers_are_never_cancelled (i : Impl) (w : World) (e : Event)
    (evs : list Event) (d : N) (t : string) (cb : Callback) :
  (now w + 15000) ∈ timers (run i [CallStart t cb true; EndOfTask] w)
  ∧ (d ∈ timers w →
     (d ∈ timers (step i e w)
      ∨ ∃ ms, e = Advance ms ∧ d ≤ now w + ms ∧ idle (step i e w))
     ∧ (d ∈ timers (run i evs w) ∨ d ≤ now (run i evs w))).
Proof.
  split; [apply start_arms_timer|].
  intros Hd. split; [now apply step_keeps_timer|now apply run_keeps_timer].
Qed.

Lemma timers_are_never_cancelled_witness :
  let w := run frontend [CallStart "t1" cb1 true; EndOfTask] init in
  15000 ∈ timers (run frontend [CallStop; CallStart "t2" cb2 true; EndOfTask] w).
Proof.
  cbv zeta.
  destruct (timers_are_never_cancelled frontend
    (run frontend [CallStart "t1" cb1 true; EndOfTask] init) CallStop
    [CallStop; CallStart "t2" cb2 true; EndOfTask] 15000 "t" cb1)
    as [_ H].
  destruct H as [_ [H|H]].
  - apply list_elem_of_singleton. reflexivity.
  - exact H.
  - vm_compute in H. exfalso. apply H. reflexivity.
Defined.

(** C1, as written, fails.  The first session is stopped after one
    second; its timer is still pending.  A second session starts at ten
    seconds; at fifteen the first timer fires and tears it down, ten
    seconds before its own timer is due. *)
Lemma orphan_timer_fires :
  let s1 := [CallStart "t1" cb1 true; EndOfTask; Advance 1000; CallStop] in
  let s2 := s1 ++ [Advance 9000; CallStart "t2" cb2 true; EndOfTask] in
  let s3 := s2 ++ [Advance 5000] in
  timers (run frontend s1 init) = [15000]
  ∧ timers (run frontend s2 init) = [15000; 25000]
  ∧ has_stream (run frontend s2 init) = true
  ∧ has_stream (run frontend s3 init) = false
  ∧ now (run frontend s3 init) = 15000
  ∧ timers (run mobile s2 init) = [15000; 25000]
  ∧ has_stream (run mobile s3 init) = false
  ∧ ¬ no_orphan_timers frontend
  ∧ ¬ no_orphan_timers mobile.
Proof.
  cbv zeta. repeat (split; [reflexivity|]).
  split; intros H;
    destruct (H [CallStart "t1" cb1 true; EndOfTask; Advance 1000]) as [H1 _];
    vm_compute in H1; discriminate.
Qed.

(** ** C2: notifications of a session that is over *)

(** Where the manager holds the stream of the session when the session is
    stopped or superseded, the claim holds.  Both calls close the stream
    before they do anything else, and a message that arrives for it
    later, whatever has happened in between, is not delivered.  After
    [stopSuggestionStream()] the registry is empty as well, and short of a
    new [startSuggestionStream] no callback is called at all. *)
Lemma held_stream_is_silenced (i : Impl) (w : World) (h : nat) (t2 : string)
    (cb2 : Callback) (c : bool) (evs : list Event) (p : Payload) :
  eventSource w = Some h →
  is_Some (heap w !! h) →
  let stopped_w := step i CallStop w in
  let restarted_w := step i (CallStart t2 cb2 c) w in
  step i (Message h p) (run i evs stopped_w) = checkpoint (run i evs stopped_w)
  ∧ step i (Message h p) (run i evs restarted_w)
    = checkpoint (run i evs restarted_w)
  ∧ (Forall not_start evs → trace (run i evs stopped_w) = trace w).
Proof.
  intros Hes Hh stopped_w restarted_w. split; [|split].
  - apply closed_message_is_dropped, run_keeps_closed.
    subst stopped_w. rewrite step_stop. now apply stopped_closes_held.
  - apply closed_message_is_dropped, run_keeps_closed.
    subst restarted_w. rewrite step_start. now apply requested_closes_held.
  - intros Hevs. subst stopped_w. rewrite step_stop.
    destruct (run_silent i evs (stopped w) Hevs eq_refl) as [_ H]. exact H.
Qed.

(** C2, evaluated where it fails.  [startSuggestionStream] is called for
    t1 and, in the same task, for t2.  The second call finds no stream
    held and closes none; when the task has ended the manager holds
    stream 1, and stream 0, of the session that has been superseded, is
    open with its handler, and cb1 is still registered.  A message that
    arrives on stream 0 is passed to cb1.  So in both classes. *)
Theorem superseded_stream_is_heard :
  (∀ i : Impl,
     let w := run i [CallStart "t1" cb1 true; CallStart "t2" cb2 true;
                     EndOfTask] init in
     eventSource w = Some 1%nat
     ∧ heap w !! 0%nat
       = Some {| es_thread := "t1"; es_closed := false;
                 es_onmessage := Some "t1"; es_onerror := true |}
     ∧ suggestionCallbacks w !! "t1" = Some cb1
     ∧ trace (step i (Message 0%nat (Parsed update_ab)) w)
       = [(1%nat, update_ab)])
  ∧ ¬ superseded_is_silent frontend
  ∧ ¬ superseded_is_silent mobile.
Proof.
  split.
  - intros i. cbv zeta. destruct i; repeat split; reflexivity.
  - split; intros H;
      destruct (H [] "t1" "t2" cb1 cb2 true true (Parsed update_ab))
        as [_ H2];
      vm_compute in H2; discriminate.
Qed.

(** ** C4: streams open at the same time *)

(** C4, evaluated where it fails.  Two calls of [startSuggestionStream]
    in one task: the second finds [this.eventSource] still [null], closes
    nothing, and both streams are open once the task has ended.  The
    manager holds the second; [stopSuggestionStream()] closes that one
    and the first stays open. *)
Theorem overlapping_starts_leave_two_open :
  let evs := [CallStart "t1" cb1 true; CallStart "t2" cb2 true; EndOfTask] in
  length (open_streams (run frontend evs init)) = 2%nat
  ∧ length (open_streams (run mobile evs init)) = 2%nat
  ∧ eventSource (run frontend evs init) = Some 1%nat
  ∧ es_thread <$> open_streams (run frontend (evs ++ [CallStop]) init) = ["t1"]
  ∧ es_thread <$> open_streams (run mobile (evs ++ [CallStop]) init) = ["t1"]
  ∧ ¬ at_most_one_open frontend
  ∧ ¬ at_most_one_open mobile.
Proof.
  cbv zeta. repeat (split; [reflexivity|]).
  split; intros H;
    specialize (H [CallStart "t1" cb1 true; CallStart "t2" cb2 true; EndOfTask]);
    vm_compute in H; lia.
Qed.

(** Where every call of [startSuggestionStream] is the last call of its
    task, the invariant does hold. *)

Lemma at_most_one_index (k : option nat) (hp : list EventSourceObj) :
  (∀ h o, hp !! h = Some o → es_closed o = false → k = Some h) →
  (length (filter (λ o, is_open o = true) hp) ≤ 1)%nat.
Proof.
  revert k. induction hp as [|x hp IH]; intros k Hk; [cbn; lia|].
  rewrite filter_cons. destruct (decide (is_open x = true)) as [Hx|Hx].
  - assert (k = Some 0%nat) as ->.
    { apply (Hk 0%nat x); [reflexivity|].
      unfold is_open in Hx. now apply negb_true_iff in Hx. }
    assert (filter (λ o, is_open o = true) hp = []) as ->; [|cbn; lia].
    destruct (filter (λ o, is_open o = true) hp) as [|o l] eqn:Hf; [reflexivity|].
    assert (o ∈ filter (λ o, is_open o = true) hp) as Ho by (rewrite Hf; left).
    apply list_elem_of_filter in Ho as [Hopen Ho].
    apply list_elem_of_lookup in Ho as [j Hj].
    assert (Some 0%nat = Some (S j)) as [=].
    apply (Hk (S j) o); [exact Hj|].
    unfold is_open in Hopen. now apply negb_true_iff in Hopen.
  - apply (IH (pred <$> k)). intros h o Hh Ho.
    now rewrite (Hk (S h) o Hh Ho).
Qed.

Lemma settled_at_most_one (w : World) :
  held_only w → (length (open_streams w) ≤ 1)%nat.
Proof. intros Hw. apply (at_most_one_index (eventSource w)), Hw. Qed.

Lemma in_flight_at_most_one (i : Impl) (w : World) :
  in_flight i w → (length (open_streams w) ≤ 1)%nat.
Proof. intros (t & p & _ & Hw). apply (at_most_one_index p), Hw. Qed.

Lemma closed_after_close (h j : nat) (o : EventSourceObj) (w : World) :
  held_only w → eventSource w = Some h →
  alter close_obj h (heap w) !! j = Some o → es_closed o = true.
Proof.
  intros Hw Hes Hj. destruct (decide (h = j)) as [->|Hne].
  - rewrite list_lookup_alter_eq in Hj.
    destruct (heap w !! j); [|discriminate]. now injection Hj as <-.
  - rewrite list_lookup_alter_ne in Hj by exact Hne.
    destruct (es_closed o) eqn:Ho; [reflexivity|].
    specialize (Hw j o Hj Ho). congruence.
Qed.

Lemma stopped_held_only (w : World) : held_only w → held_only (stopped w).
Proof.
  intros Hw j o Hj Ho. exfalso. cbn in Hj.
  destruct (eventSource w) as [h|] eqn:Hes.
  - rewrite (closed_after_close h j o w Hw Hes Hj) in Ho. discriminate.
  - specialize (Hw j o Hj Ho). congruence.
Qed.

Lemma stopped_settled (w : World) : settled w → settled (stopped w).
Proof. intros [Hq Hw]. split; [exact Hq|now apply stopped_held_only]. Qed.

Lemma received_settled (t : string) (v : JSValue) (w : World) :
  settled w → settled (received t v w).
Proof.
  intros Hw. unfold received, final_checked.
  destruct (suggestionCallbacks w !! t) as [cb|];
    [destruct (cb_throws cb v)|]; cbn zeta;
    destruct v; try exact Hw; try destruct (truthy _); try exact Hw;
    try (apply (stopped_settled (with_trace _ w)); exact Hw);
    try (apply stopped_settled; exact Hw).
Qed.

Lemma dispatch_message_settled (h : nat) (p : Payload) (w : World) :
  settled w → settled (dispatch_message h p w).
Proof.
  intros Hw. unfold dispatch_message.
  destruct (heap w !! h) as [o|]; [|done].
  destruct (es_closed o); [done|].
  destruct (es_onmessage o) as [t|]; [|done].
  destruct p as [|v]; [done|].
  unfold exec. rewrite onmessage_parsed. now apply received_settled.
Qed.

Lemma dispatch_error_settled (h : nat) (w : World) :
  settled w → settled (dispatch_error h w).
Proof.
  intros Hw. unfold dispatch_error.
  destruct (heap w !! h) as [o|]; [|done].
  destruct (es_onerror o); [|done].
  unfold onerror. rewrite exec_stop. now apply stopped_settled.
Qed.

Lemma advance_settled (ms : N) (w : World) : settled w → settled (advance ms w).
Proof.
  intros Hw. unfold advance. rewrite fire_eq.
  destruct (filter _ (timers w)); [exact Hw|].
  apply stopped_settled. exact Hw.
Qed.

Lemma requested_in_flight (i : Impl) (t : string) (cb : Callback) (c : bool)
    (w : World) :
  settled w → in_flight i (requested (job_of i) t cb c w).
Proof.
  intros [Hq Hw]. eexists t, _. split; [cbn; rewrite Hq; reflexivity|].
  intros j o Hj Ho. cbn in Hj.
  assert (∀ o', match eventSource w with
                | Some h => alter close_obj h (heap w)
                | None => heap w
                end !! j = Some o' → es_closed o' = true) as Hclosed.
  { intros o' Hj'. destruct (eventSource w) as [h|] eqn:Hes.
    - apply (closed_after_close h j o' w Hw Hes Hj').
    - destruct (es_closed o') eqn:Ho'; [reflexivity|].
      specialize (Hw j o' Hj' Ho'). congruence. }
  destruct c.
  - apply lookup_app_Some in Hj as [Hj|[Hlen Hj]].
    + rewrite (Hclosed o Hj) in Ho. discriminate.
    + destruct (j - length _)%nat as [|n] eqn:Hn in Hj; [|discriminate].
      f_equal. lia.
  - rewrite (Hclosed o Hj) in Ho. discriminate.
Qed.

Lemma in_flight_checkpoint (i : Impl) (w : World) :
  in_flight i w → settled (checkpoint w).
Proof.
  intros (t & p & Hq & Hw).
  assert (∀ h, p = Some h → held_only (attached t h (with_jobs [] w))) as Hatt.
  { intros h -> j o Hj Ho. cbn in Hj |- *.
    destruct (decide (h = j)) as [->|Hne]; [reflexivity|].
    rewrite list_lookup_alter_ne in Hj by exact Hne.
    apply (Hw j o Hj Ho). }
  assert (p = None → held_only (stopped (with_jobs [] w))) as Hnone.
  { intros -> j o Hj Ho. exfalso. cbn in Hj.
    destruct (eventSource w) as [h|].
    - destruct (decide (h = j)) as [->|Hne].
      + rewrite list_lookup_alter_eq in Hj.
        destruct (heap w !! j); [|discriminate]. injection Hj as <-.
        discriminate.
      + rewrite list_lookup_alter_ne in Hj by exact Hne.
        discriminate (Hw j o Hj Ho).
    - discriminate (Hw j o Hj Ho). }
  destruct i; cbn [job_of] in Hq.
  - rewrite (checkpoint_cons _ _ _ Hq). destruct p as [h|]; cbn [job_done].
    + rewrite checkpoint_nil by reflexivity. split; [reflexivity|]. now apply Hatt.
    + rewrite checkpoint_nil by reflexivity. split; [reflexivity|]. now apply Hnone.
  - rewrite (checkpoint_cons _ _ _ Hq). destruct p as [h|]; cbn [job_done].
    + erewrite checkpoint_cons by reflexivity. cbn [job_done].
      rewrite checkpoint_nil by reflexivity. split; [reflexivity|].
      apply (Hatt h eq_refl).
    + erewrite checkpoint_cons by reflexivity. cbn [job_done].
      rewrite checkpoint_nil by reflexivity. split; [reflexivity|].
      apply (Hnone eq_refl).
Qed.

Lemma serial_invariant (i : Impl) (evs : list Event) (pending : bool) (w : World) :
  serial_from pending evs = true →
  (if pending then in_flight i w else settled w) →
  settled (run i evs w) ∨ in_flight i (run i evs w).
Proof.
  revert pending w. induction evs as [|e evs IH]; intros pending w Hs Hw.
  - destruct pending; auto.
  - change (run i (e :: evs) w) with (run i evs (step i e w)).
    assert (settled (checkpoint w)) as Hcp.
    { destruct pending; [now apply (in_flight_checkpoint i)|].
      now rewrite checkpoint_nil by apply Hw. }
    destruct e as [t cb c| | |h p|h|ms]; cbn [serial_from step] in *.
    + apply andb_true_iff in Hs as [Hp Hs]. apply negb_true_iff in Hp. subst.
      apply (IH true); [exact Hs|].
      unfold exec. rewrite start_eq. now apply requested_in_flight.
    + apply andb_true_iff in Hs as [Hp Hs]. apply negb_true_iff in Hp. subst.
      apply (IH false); [exact Hs|]. rewrite exec_stop. now apply stopped_settled.
    + apply (IH false); [exact Hs|exact Hcp].
    + apply (IH false); [exact Hs|]. now apply dispatch_message_settled.
    + apply (IH false); [exact Hs|]. now apply dispatch_error_settled.
    + apply (IH false); [exact Hs|]. now apply advance_settled.
Qed.

Lemma serial_at_most_one_open (i : Impl) (evs : list Event) :
  serial evs → (length (open_streams (run i evs init)) ≤ 1)%nat.
Proof.
  intros Hs.
  destruct (serial_invariant i evs false init Hs) as [[_ H]|H].
  - split; [reflexivity|]. intros h o Hh. discriminate Hh.
  - now apply settled_at_most_one.
  - now apply (in_flight_at_most_one i).
Qed.

(** ** C10: the two classes compared *)

Lemma strip_of_nil (w : World) : jobs w = [] → strip w = w.
Proof. destruct w as [es m hp tm n q tr]; cbn; intros ->; reflexivity. Qed.

Lemma strip_observe (w1 w2 : World) :
  strip w1 = strip w2 → observe w1 = observe w2.
Proof.
  intros H. unfold observe, has_stream.
  change (trace w1) with (trace (strip w1)).
  change (eventSource w1) with (eventSource (strip w1)).
  change (suggestionCallbacks w1) with (suggestionCallbacks (strip w1)).
  now rewrite H.
Qed.

(** chatService.ts: the continuations run in the order of the calls. *)
Lemma frontend_checkpoint (q : list (string * option nat)) (w : World) :
  jobs w = map await_job q → checkpoint w = resume_all q (strip w).
Proof.
  revert w. induction q as [|[t p] q IH]; intros w Hq.
  - rewrite checkpoint_nil by exact Hq. symmetry. now apply strip_of_nil.
  - cbn in Hq. rewrite (checkpoint_cons _ _ _ Hq).
    rewrite IH; [|destruct p; reflexivity].
    destruct p; reflexivity.
Qed.

Lemma settle_stopped (bs : list bool) (w : World) :
  settle bs (stopped w) = stopped w.
Proof. unfold settle. destruct (existsb id bs); reflexivity. Qed.

Lemma catches_checkpoint (cs : list bool) (w : World) :
  jobs w = map CatchReaction cs → checkpoint w = settle cs (strip w).
Proof.
  revert w. induction cs as [|b cs IH]; intros w Hq.
  - rewrite checkpoint_nil by exact Hq. symmetry. now apply strip_of_nil.
  - cbn in Hq. rewrite (checkpoint_cons _ _ _ Hq).
    rewrite IH; [|destruct b; reflexivity].
    destruct b; cbn.
    + apply (settle_stopped cs (strip w)).
    + reflexivity.
Qed.

(** api.ts: the [.then] reactions run in the order of the calls, and the
    [.catch] reactions behind all of them. *)
Lemma mobile_checkpoint (q : list (string * option nat)) (cs : list bool)
    (w : World) :
  jobs w = map then_job q ++ map CatchReaction cs →
  checkpoint w = settle (cs ++ map rejected_of q) (attach_all q (strip w)).
Proof.
  revert cs w. induction q as [|[t p] q IH]; intros cs w Hq.
  - cbn in Hq. rewrite app_nil_r. now apply catches_checkpoint.
  - cbn in Hq. rewrite (checkpoint_cons _ _ _ Hq).
    destruct p as [h|].
    + rewrite (IH (cs ++ [false])).
      * rewrite <- app_assoc. reflexivity.
      * cbn. rewrite map_app, <- app_assoc. reflexivity.
    + rewrite (IH (cs ++ [true])).
      * rewrite <- app_assoc. reflexivity.
      * cbn. rewrite map_app, <- app_assoc. reflexivity.
Qed.

Lemma resume_all_fulfilled (ss : list (string * option nat)) (w : World) :
  Forall (λ tp, rejected_of tp = false) ss →
  resume_all ss w = attach_all ss w
  ∧ existsb id (map rejected_of ss) = false.
Proof.
  intros Hss. revert w.
  induction Hss as [|[t [h|]] ss Ht _ IH]; intros w; [done| |discriminate Ht].
  cbn. apply IH.
Qed.

Lemma resume_all_rejected (fs : list (string * option nat)) (w : World) :
  Forall (λ tp, rejected_of tp = true) fs →
  resume_all fs w = settle (map rejected_of fs) w
  ∧ attach_all fs w = w.
Proof.
  intros Hfs. revert w.
  induction Hfs as [|[t [h|]] fs Ht _ IH]; intros w; [done|discriminate Ht|].
  cbn. destruct (IH (stopped w)) as [H1 _]. destruct (IH w) as [_ H2].
  split; [|exact H2].
  change (resume_all fs (stopped w) = stopped w).
  rewrite H1. apply settle_stopped.
Qed.

(** On a queue in which the fulfilled promises come first, the two
    orders give the same world. *)
Lemma checkpoints_agree (failed : bool) (wF wM : World) :
  sim failed wF wM → checkpoint wF = checkpoint wM.
Proof.
  intros (Hstrip & ss & fs & HqF & HqM & Hss & Hfs & _).
  rewrite (frontend_checkpoint _ _ HqF).
  rewrite (mobile_checkpoint (ss ++ fs) [] wM) by now rewrite app_nil_r.
  rewrite Hstrip. cbn [app].
  unfold resume_all, attach_all. rewrite !foldl_app.
  fold (resume_all ss (strip wM)) (attach_all ss (strip wM)).
  destruct (resume_all_fulfilled ss (strip wM) Hss) as [-> Hnone].
  set (w := attach_all ss (strip wM)).
  fold (resume_all fs w) (attach_all fs w).
  destruct (resume_all_rejected fs w Hfs) as [-> ->].
  unfold settle. rewrite map_app, existsb_app, Hnone. reflexivity.
Qed.

Lemma sim_refl (w : World) : jobs w = [] → sim false w w.
Proof.
  intros Hq. split; [reflexivity|]. exists [], [].
  repeat split; auto.
Qed.

Lemma dispatch_message_jobs (h : nat) (p : Payload) (w : World) :
  jobs (dispatch_message h p w) = jobs w.
Proof.
  unfold dispatch_message.
  destruct (heap w !! h) as [o|]; [|done].
  destruct (es_closed o); [done|].
  destruct (es_onmessage o) as [t|]; [|done].
  destruct p as [|v]; [done|].
  unfold exec. rewrite onmessage_parsed. cbn [snd].
  unfold received, final_checked.
  destruct (suggestionCallbacks w !! t) as [cb|];
    [destruct (cb_throws cb v)|]; cbn;
    destruct v; cbn; auto; destruct (truthy _); auto.
Qed.

Lemma dispatch_error_jobs (h : nat) (w : World) :
  jobs (dispatch_error h w) = jobs w.
Proof.
  unfold dispatch_error.
  destruct (heap w !! h) as [o|]; [|done].
  destruct (es_onerror o); [|done].
  unfold onerror. now rewrite exec_stop.
Qed.

Lemma advance_jobs (ms : N) (w : World) : jobs (advance ms w) = jobs w.
Proof.
  unfold advance. rewrite fire_eq.
  destruct (filter _ (timers w)); reflexivity.
Qed.

Lemma strip_requested (mk1 mk2 : string → option nat → Job) (t : string)
    (cb : Callback) (c : bool) (w1 w2 : World) :
  strip w1 = strip w2 →
  strip (requested mk1 t cb c w1) = strip (requested mk2 t cb c w2)
  ∧ ∃ p, jobs (requested mk1 t cb c w1) = jobs w1 ++ [mk1 t p]
         ∧ jobs (requested mk2 t cb c w2) = jobs w2 ++ [mk2 t p]
         ∧ rejected_of (t, p) = negb c.
Proof.
  destruct w1 as [es1 m1 hp1 tm1 n1 q1 tr1], w2 as [es2 m2 hp2 tm2 n2 q2 tr2].
  unfold strip, with_jobs; cbn. intros [= -> -> -> -> -> ->].
  split; [reflexivity|].
  eexists. split; [reflexivity|]. split; [reflexivity|].
  destruct c; reflexivity.
Qed.

(** One event keeps the two worlds related. *)
Lemma sim_step (failed : bool) (e : Event) (rest : list Event) (wF wM : World) :
  sim failed wF wM →
  orderly_from failed (e :: rest) = true →
  ∃ failed', sim failed' (step frontend e wF) (step mobile e wM)
             ∧ orderly_from failed' rest = true.
Proof.
  intros Hsim Hord.
  pose proof (checkpoints_agree _ _ _ Hsim) as Hcp.
  destruct e as [t cb c| | |h p|h|ms]; cbn [step orderly_from] in *.
  - destruct Hsim as (Hstrip & ss & fs & HqF & HqM & Hss & Hfs & Hfailed).
    unfold exec. rewrite !start_eq. cbn [snd job_of].
    destruct (strip_requested AwaitResume ThenReaction t cb c _ _ Hstrip)
      as (Hstrip' & p & HjF & HjM & Hp).
    destruct c.
    + apply andb_true_iff in Hord as [Hnf Hord].
      apply negb_true_iff in Hnf. subst failed.
      rewrite (Hfailed eq_refl) in *. rewrite app_nil_r in *.
      exists false. split; [|exact Hord].
      split; [exact Hstrip'|]. exists (ss ++ [(t, p)]), [].
      rewrite app_nil_r, HjF, HjM, HqF, HqM, !map_app.
      repeat split; auto.
      apply Forall_app. split; [exact Hss|]. now constructor.
    + exists true. split; [|exact Hord].
      split; [exact Hstrip'|]. exists ss, (fs ++ [(t, p)]).
      rewrite HjF, HjM, HqF, HqM, !map_app, <- !app_assoc.
      repeat split; auto; [|discriminate].
      apply Forall_app. split; [exact Hfs|]. now constructor.
  - exists failed. split; [|exact Hord].
    destruct Hsim as (Hstrip & ss & fs & HqF & HqM & Hss & Hfs & Hfailed).
    rewrite !exec_stop. split.
    + change (stopped (strip wF) = stopped (strip wM)). now rewrite Hstrip.
    + exists ss, fs. repeat split; auto.
  - exists false. split; [|exact Hord].
    rewrite Hcp. apply sim_refl, checkpoint_jobs.
  - exists false. split; [|exact Hord].
    rewrite Hcp. apply sim_refl.
    rewrite dispatch_message_jobs. apply checkpoint_jobs.
  - exists false. split; [|exact Hord].
    rewrite Hcp. apply sim_refl.
    rewrite dispatch_error_jobs. apply checkpoint_jobs.
  - exists false. split; [|exact Hord].
    rewrite Hcp. apply sim_refl.
    rewrite advance_jobs. apply checkpoint_jobs.
Qed.

Lemma sim_run (evs : list Event) (failed : bool) (wF wM : World) :
  sim failed wF wM →
  orderly_from failed evs = true →
  ∃ failed', sim failed' (run frontend evs wF) (run mobile evs wM).
Proof.
  revert failed wF wM.
  induction evs as [|e evs IH]; intros failed wF wM Hsim Hord.
  - exists failed. exact Hsim.
  - destruct (sim_step _ _ _ _ _ Hsim Hord) as (failed' & Hsim' & Hord').
    apply (IH failed' _ _ Hsim' Hord').
Qed.

(** C10, as amended.  On every sequence of events in which, within one
    task, no successful [startSuggestionStream] follows one whose stream
    could not be created, the two classes make the same callback calls
    with the same arguments and end with the same stream held, the same
    registry, the same stream objects, timers and clock; once the task
    has ended the two worlds are equal. *)
Theorem implementations_agree_when_orderly (evs : list Event) :
  orderly evs →
  observe (run frontend evs init) = observe (run mobile evs init)
  ∧ strip (run frontend evs init) = strip (run mobile evs init)
  ∧ checkpoint (run frontend evs init) = checkpoint (run mobile evs init).
Proof.
  intros Hord.
  destruct (sim_run evs false init init (sim_refl init eq_refl) Hord)
    as (failed' & Hsim).
  split; [|split].
  - apply strip_observe. apply Hsim.
  - apply Hsim.
  - now apply (checkpoints_agree failed').
Qed.

Lemma implementations_agree_when_orderly_witness :
  let evs := [CallStart "t1" cb1 true; CallStart "t2" cb2 false; EndOfTask;
              CallStart "t1" cb1 true; Message 1%nat (Parsed final_abc)] in
  observe (run frontend evs init) = observe (run mobile evs init).
Proof.
  cbv zeta.
  apply (implementations_agree_when_orderly
           [CallStart "t1" cb1 true; CallStart "t2" cb2 false; EndOfTask;
            CallStart "t1" cb1 true; Message 1%nat (Parsed final_abc)]).
  reflexivity.
Defined.

(** C10, as written, fails.  A call whose stream cannot be created is
    followed, in the same task, by one whose stream can.  In
    chatService.ts the teardown of the first runs before the second stream
    is attached, which then stays; in api.ts it runs after, and closes
    it. *)
Lemma implementations_differ :
  let evs := [CallStart "t1" cb1 false; CallStart "t2" cb2 true; EndOfTask] in
  has_stream (run frontend evs init) = true
  ∧ has_stream (run mobile evs init) = false
  ∧ length (open_streams (run frontend evs init)) = 1%nat
  ∧ length (open_streams (run mobile evs init)) = 0%nat
  ∧ ¬ implementations_agree.
Proof.
  cbv zeta. repeat (split; [reflexivity|]).
  intros H.
  specialize (H [CallStart "t1" cb1 false; CallStart "t2" cb2 true; EndOfTask]).
  vm_compute in H. discriminate.
Qed.

(** * Further properties of the two service files *)

(** ** Responses and what the callers make of them *)

Lemma ensure_envelope_of_bare (body : JSValue) :
  is_object body = true → has_member "code" body = false →
  ensure_envelope body = ok_envelope body.
Proof. intros H1 H2. unfold ensure_envelope. now rewrite H1, H2. Qed.

Lemma ensure_envelope_of_coded (body : JSValue) :
  has_member "code" body = true → ensure_envelope body = body.
Proof.
  intros H. unfold ensure_envelope. rewrite H.
  now rewrite andb_false_r.
Qed.

Lemma ensure_envelope_of_other (body : JSValue) :
  is_object body = false → ensure_envelope body = body.
Proof. intros H. unfold ensure_envelope. now rewrite H. Qed.

Lemma is_zero_has_code (v : JSValue) :
  is_zero (get_prop "code" v) = true → has_member "code" v = true.
Proof. unfold has_member. destruct (get_prop "code" v); [reflexivity|discriminate]. Qed.

Lemma unwrap_ok_envelope (fallback : string) (body : JSValue) :
  unwrap fallback (ok_envelope body) = Returns (Some body).
Proof. reflexivity. Qed.

Lemma unwrap_coded (fallback : string) (env : JSValue) :
  is_zero (get_prop "code" env) = true →
  unwrap fallback env = Returns (get_prop "data" env).
Proof.
  intros H. destruct env; try discriminate H.
  unfold unwrap. now rewrite H.
Qed.

Lemma unwrap_returns (fallback : string) (body : JSValue) (r : option JSValue) :
  unwrap fallback body = Returns r →
  is_zero (get_prop "code" body) = true ∧ r = get_prop "data" body.
Proof.
  intros H. destruct body; cbn in H |- *; try discriminate H.
  destruct (is_zero (assoc_last "code" props)); [|discriminate H].
  injection H as <-. split; reflexivity.
Qed.

(** What a call gives when the request was answered with [body]. *)
Lemma checked_response (fallback : string) (body : JSValue) :
  checked fallback (Returns (ensure_envelope body))
  = if is_object body && negb (has_member "code" body)
    then Returns (Some body)
    else unwrap fallback body.
Proof.
  unfold ensure_envelope.
  destruct (is_object body && negb (has_member "code" body)); reflexivity.
Qed.

(** X1. The server may answer a chat request with the bare reply, an
    object (or array) without a [code] member, or with an envelope whose
    [code] is the number 0 and whose [data] is the reply: [sendMessage]
    and [executeCommand] of both clients return the same reply for the
    two. *)
Theorem both_body_formats_are_accepted (st st' : N) (body env : JSValue) :
  is_object body = true →
  has_member "code" body = false →
  is_zero (get_prop "code" env) = true →
  get_prop "data" env = Some body →
  FrontendChat.sendMessage (Response st body) = Returns (Some body)
  ∧ FrontendChat.sendMessage (Response st' env) = Returns (Some body)
  ∧ FrontendChat.executeCommand (Response st body) = Returns (Some body)
  ∧ FrontendChat.executeCommand (Response st' env) = Returns (Some body)
  ∧ MobileChat.sendMessage (Response st body) = Returns (Some body)
  ∧ MobileChat.sendMessage (Response st' env) = Returns (Some body)
  ∧ MobileChat.executeCommand (Response st body) = Returns (Some body)
  ∧ MobileChat.executeCommand (Response st' env) = Returns (Some body).
Proof.
  intros Hobj Hbare Hzero Hdata.
  pose proof (is_zero_has_code env Hzero) as Hcode.
  unfold FrontendChat.sendMessage, FrontendChat.executeCommand,
    MobileChat.sendMessage, MobileChat.executeCommand,
    FrontendApi.sendMessage, MobileApi.sendMessage.
  rewrite !checked_response, Hobj, Hbare, Hcode, andb_false_r. cbn [andb negb].
  rewrite !(unwrap_coded _ env Hzero), Hdata.
  repeat split; reflexivity.
Qed.

Lemma both_body_formats_are_accepted_witness :
  let reply := JObject [("route", JString "course"); ("answer", JString "yes")] in
  FrontendChat.sendMessage (Response 200 reply) = Returns (Some reply)
  ∧ FrontendChat.sendMessage (Response 200 (ok_envelope reply)) = Returns (Some reply).
Proof.
  cbv zeta.
  destruct (both_body_formats_are_accepted 200 200
    (JObject [("route", JString "course"); ("answer", JString "yes")])
    (ok_envelope (JObject [("route", JString "course"); ("answer", JString "yes")]))
    eq_refl eq_refl eq_refl eq_refl) as (H1 & H2 & _).
  split; [exact H1|exact H2].
Defined.

(** X2. [sendMessage] returns a value in two cases only: the body is an
    object without a [code] member, and the value is the body; or the
    body has a [code] member that is the number 0, and the value is its
    [data] member, [undefined] when it has none.  A rejected request, a
    body that is [null], a string, a number or a boolean, and a [code]
    that is anything else, the string "0" included, give no value. *)
Theorem send_returns_exactly_when (http : HttpResult) (r : option JSValue) :
  (FrontendChat.sendMessage http = Returns r
   ↔ ∃ st body, http = Response st body
       ∧ ((is_object body = true ∧ has_member "code" body = false ∧ r = Some body)
          ∨ (is_zero (get_prop "code" body) = true ∧ r = get_prop "data" body)))
  ∧ (MobileChat.sendMessage http = Returns r ↔ FrontendChat.sendMessage http = Returns r).
Proof.
  split; [|reflexivity].
  unfold FrontendChat.sendMessage, FrontendApi.sendMessage.
  destruct http as [st body|st].
  - rewrite checked_response. split.
    + intros H. exists st, body. split; [reflexivity|].
      destruct (is_object body) eqn:Hobj, (has_member "code" body) eqn:Hcode;
        cbn [andb negb] in H;
        first [ right; now apply (unwrap_returns "发送消息失败")
              | left; injection H as <-; auto ].
    + intros (st0 & body0 & [= <- <-] & [(Hobj & Hcode & ->)|(Hz & ->)]).
      * now rewrite Hobj, Hcode.
      * rewrite (is_zero_has_code _ Hz), andb_false_r.
        now apply unwrap_coded.
  - split; [discriminate|].
    intros (st0 & body0 & H & _). discriminate H.
Qed.

(** X3. When the body carries a [code] member that is not the number 0,
    the call fails with an [Error] made from the [message] member of the
    body, or from the fallback text of the method when that member is
    missing, empty or otherwise falsy; a [null] body fails with a
    [TypeError], and a rejected request with the rejection itself. *)
Theorem send_failure_reports (st : N) (body : JSValue) (rej : option N) :
  (has_member "code" body = true →
   is_zero (get_prop "code" body) = false →
   FrontendChat.sendMessage (Response st body)
   = Fails (ErrorWith (or_else (get_prop "message" body) (JString "发送消息失败")))
   ∧ MobileChat.executeCommand (Response st body)
   = Fails (ErrorWith (or_else (get_prop "message" body) (JString "执行命令失败")))
   ∧ (truthy (get_prop "message" body) = false →
      FrontendChat.sendMessage (Response st body)
      = Fails (ErrorWith (JString "发送消息失败"))))
  ∧ FrontendChat.sendMessage (Response st JNull) = Fails TypeErrorThrown
  ∧ FrontendChat.sendMessage (Rejection rej) = Fails (RequestFailed rej)
  ∧ MobileChat.sendMessage (Rejection rej) = Fails (RequestFailed rej).
Proof.
  split; [|repeat split; reflexivity].
  intros Hcode Hz.
  unfold FrontendChat.sendMessage, MobileChat.executeCommand,
    FrontendApi.sendMessage, MobileApi.sendMessage.
  rewrite !checked_response, Hcode, andb_false_r.
  assert (∀ fb, unwrap fb body
                = Fails (ErrorWith (or_else (get_prop "message" body) (JString fb))))
    as Hun.
  { intros fb. destruct body; try discriminate Hcode.
    unfold unwrap. now rewrite Hz. }
  rewrite !Hun. split; [reflexivity|]. split; [reflexivity|].
  intros Hm. unfold or_else. rewrite Hm.
  destruct (get_prop "message" body); reflexivity.
Qed.

Lemma send_failure_reports_witness :
  FrontendChat.sendMessage
    (Response 200 (JObject [("code", JString "0"); ("message", JString "");
                            ("data", JString "x")]))
  = Fails (ErrorWith (JString "发送消息失败")).
Proof.
  destruct (send_failure_reports 200
    (JObject [("code", JString "0"); ("message", JString "");
              ("data", JString "x")]) None) as [H _].
  destruct (H eq_refl eq_refl) as (_ & _ & H3).
  apply H3. reflexivity.
Defined.

(** X4. What [getOrder] hands to its caller, in both clients, is settled
    by one pass: an object among its results always has a [code] member,
    and putting a result through the normalisation again changes
    nothing. *)
Theorem order_result_has_code (http : HttpResult) (v : JSValue) :
  FrontendApi.getOrder http = Returns v →
  MobileApi.getOrder http = Returns v
  ∧ (is_object v = true → has_member "code" v = true)
  ∧ ensure_envelope v = v.
Proof.
  destruct http as [st body|st]; [|discriminate].
  cbn. intros [= <-]. split; [reflexivity|].
  destruct (is_object body) eqn:Hobj; [destruct (has_member "code" body) eqn:Hcode|].
  - rewrite !(ensure_envelope_of_coded body Hcode). auto.
  - rewrite (ensure_envelope_of_bare body Hobj Hcode).
    split; reflexivity.
  - rewrite !(ensure_envelope_of_other body Hobj).
    split; [congruence|reflexivity].
Qed.

Lemma order_result_has_code_witness :
  let order := JObject [("order_id", JString "A1"); ("status", JString "paid")] in
  has_member "code" (ok_envelope order) = true
  ∧ ensure_envelope (ok_envelope order) = ok_envelope order.
Proof.
  cbv zeta.
  destruct (order_result_has_code
    (Response 200 (JObject [("order_id", JString "A1"); ("status", JString "paid")]))
    (ok_envelope (JObject [("order_id", JString "A1"); ("status", JString "paid")]))
    eq_refl) as (_ & H2 & H3).
  split; [apply H2; reflexivity|exact H3].
Defined.

(** X5. [getModels] of the mobile client gives the same model
    information whether the server sends it bare, an object with a
    [current] member, or as the [data] member of an object that has no
    [current] member of its own. *)
Theorem models_in_either_format (st st' : N) (info env : JSValue) :
  is_object info = true →
  has_member "current" info = true →
  has_member "current" env = false →
  get_prop "data" env = Some info →
  MobileApi.getModels (Response st info) = Returns (Some info)
  ∧ MobileApi.getModels (Response st' env) = Returns (Some info).
Proof.
  intros Hobj Hcur Hnocur Hdata. unfold MobileApi.getModels.
  rewrite Hobj, Hcur, Hnocur, andb_false_r. cbn [andb].
  split; [reflexivity|].
  destruct env; try discriminate Hdata.
  unfold has_member. rewrite Hdata. reflexivity.
Qed.

Lemma models_in_either_format_witness :
  let info := JObject [("current", JString "qwen-turbo");
                       ("models", JArray [JString "qwen-turbo"])] in
  MobileApi.getModels (Response 200 info) = Returns (Some info)
  ∧ MobileApi.getModels (Response 200 (ok_envelope info)) = Returns (Some info).
Proof.
  cbv zeta.
  apply (models_in_either_format 200 200
    (JObject [("current", JString "qwen-turbo");
              ("models", JArray [JString "qwen-turbo"])])
    (ok_envelope (JObject [("current", JString "qwen-turbo");
                           ("models", JArray [JString "qwen-turbo"])])));
    reflexivity.
Defined.

(** X6. [getGreeting] of the mobile client gives the same greeting
    whether the server sends it bare, an object with a [message] and an
    [options] member, or as the [data] member of an object without an
    [options] member; the [message] member of such an envelope does not
    get in the way. *)
Theorem greeting_in_either_format (st st' : N) (greeting env : JSValue) :
  is_object greeting = true →
  has_member "message" greeting = true →
  has_member "options" greeting = true →
  has_member "options" env = false →
  get_prop "data" env = Some greeting →
  MobileApi.getGreeting (Response st greeting) = Returns (Some greeting)
  ∧ MobileApi.getGreeting (Response st' env) = Returns (Some greeting).
Proof.
  intros Hobj Hmsg Hopt Hnoopt Hdata. unfold MobileApi.getGreeting.
  rewrite Hobj, Hmsg, Hopt, Hnoopt, andb_false_r. cbn [andb].
  split; [reflexivity|].
  destruct env; try discriminate Hdata.
  unfold has_member. rewrite Hdata. reflexivity.
Qed.

Lemma greeting_in_either_format_witness :
  let greeting := JObject [("message", JString "hello"); ("options", JArray [])] in
  MobileApi.getGreeting (Response 200 greeting) = Returns (Some greeting)
  ∧ MobileApi.getGreeting (Response 200 (ok_envelope greeting)) = Returns (Some greeting).
Proof.
  cbv zeta.
  apply (greeting_in_either_format 200 200
    (JObject [("message", JString "hello"); ("options", JArray [])])
    (ok_envelope (JObject [("message", JString "hello"); ("options", JArray [])])));
    reflexivity.
Defined.

(** ** The interceptors *)

Section InterceptorFacts.

Variable toLowerCase : string → string.
Variable URL_pathname : string → option string.

Lemma str_or_truthy (o : option string) (d : string) :
  d ≠ "" → str_or o d ≠ "" ∧ str_truthy (Some (str_or o d)) = Some (str_or o d).
Proof.
  intros Hd. unfold str_or, str_truthy.
  destruct o as [s|]; [destruct (String.eqb s "") eqn:Hs|].
  - split; [exact Hd|]. apply String.eqb_neq in Hd. now rewrite Hd.
  - split; [now apply String.eqb_neq|]. now rewrite Hs.
  - split; [exact Hd|]. apply String.eqb_neq in Hd. now rewrite Hd.
Qed.

Lemma strip_content_type_other (config : RequestConfig) (h : gmap string string)
    (k : string) :
  k ≠ "Content-Type" →
  strip_content_type toLowerCase config h !! k = h !! k.
Proof.
  intros Hk. unfold strip_content_type.
  destruct (String.eqb _ "get"); [|reflexivity].
  now rewrite lookup_delete_ne.
Qed.

Lemma set_if_truthy_other (k k' : string) (v : option string)
    (h : gmap string string) :
  k ≠ k' → set_if_truthy k v h !! k' = h !! k'.
Proof.
  intros Hk. unfold set_if_truthy.
  destruct (str_truthy v); [|reflexivity]. now rewrite lookup_insert_ne.
Qed.

Lemma set_if_truthy_same (k : string) (v : option string)
    (h : gmap string string) :
  set_if_truthy k v h !! k
  = match str_truthy v with Some s => Some s | None => h !! k end.
Proof.
  unfold set_if_truthy.
  destruct (str_truthy v); [|reflexivity]. now rewrite lookup_insert_eq.
Qed.

(** X7. A request of the frontend client that is not a GET of
    [/health], [/models/list] or [/greet] leaves the interceptor with an
    [X-Tenant-ID] header that is never empty: the stored tenant id, or
    [default] when none is stored or the stored one is empty.  Its
    [X-API-Key] header is the stored key when that is not empty, and
    otherwise whatever the request carried already. *)
Theorem frontend_request_credentials (baseURL : string)
    (localStorage : gmap string string) (time : N) (config : RequestConfig) :
  isSimpleGet toLowerCase URL_pathname baseURL config = false →
  let sent := req_headers (frontend_request toLowerCase URL_pathname baseURL
                             localStorage time config) in
  sent !! "X-Tenant-ID" = Some (str_or (localStorage !! "tenantId") "default")
  ∧ str_or (localStorage !! "tenantId") "default" ≠ ""
  ∧ sent !! "X-API-Key"
    = match str_truthy (localStorage !! "apiKey") with
      | Some key => Some key
      | None => req_headers config !! "X-API-Key"
      end.
Proof.
  intros Hsimple sent. subst sent. unfold frontend_request. rewrite Hsimple.
  cbn [req_headers].
  destruct (str_or_truthy (localStorage !! "tenantId") "default") as [Hne Htruthy];
    [discriminate|].
  rewrite !strip_content_type_other by discriminate.
  split; [|split; [exact Hne|]].
  - rewrite set_if_truthy_other by discriminate.
    now rewrite set_if_truthy_same, Htruthy.
  - rewrite set_if_truthy_same.
    destruct (str_truthy (localStorage !! "apiKey")); [reflexivity|].
    now rewrite set_if_truthy_other by discriminate.
Qed.

Lemma simple_get_keeps_header (baseURL : string)
    (localStorage : gmap string string) (time : N) (config : RequestConfig)
    (k : string) :
  isSimpleGet toLowerCase URL_pathname baseURL config = true →
  k ≠ "Content-Type" →
  req_headers (frontend_request toLowerCase URL_pathname baseURL
                 localStorage time config) !! k
  = req_headers config !! k.
Proof.
  intros Hsimple Hk. unfold frontend_request. rewrite Hsimple. cbn [req_headers].
  now apply strip_content_type_other.
Qed.

(** X8. A GET of one of the three open paths leaves the interceptor of
    the frontend client with the headers it came with, less
    [Content-Type]: neither the tenant id nor the API key of the page is
    added to it. *)
Theorem simple_get_carries_no_credentials (baseURL : string)
    (localStorage : gmap string string) (time : N) (config : RequestConfig) :
  isSimpleGet toLowerCase URL_pathname baseURL config = true →
  req_headers (frontend_request toLowerCase URL_pathname baseURL
                 localStorage time config)
  = delete "Content-Type" (req_headers config).
Proof.
  intros Hsimple. unfold frontend_request. rewrite Hsimple. cbn [req_headers].
  unfold isSimpleGet in Hsimple. apply andb_true_iff in Hsimple as [Hget _].
  unfold strip_content_type. now rewrite Hget.
Qed.

(** X9. In both clients a GET request leaves the interceptor without a
    [Content-Type] header, and a request of any other method with the
    [Content-Type] it came with. *)
Theorem get_requests_lose_content_type (baseURL : string)
    (storage : gmap string string) (envTenant envKey : option string)
    (time : N) (config : RequestConfig) :
  let sentF := req_headers (frontend_request toLowerCase URL_pathname baseURL
                              storage time config) in
  let sentM := req_headers (mobile_request toLowerCase storage envTenant envKey
                              time config) in
  (method_of toLowerCase config = "get" →
   sentF !! "Content-Type" = None ∧ sentM !! "Content-Type" = None)
  ∧ (method_of toLowerCase config ≠ "get" →
     sentF !! "Content-Type" = req_headers config !! "Content-Type"
     ∧ sentM !! "Content-Type" = req_headers config !! "Content-Type").
Proof.
  cbv zeta. unfold frontend_request, mobile_request, isSimpleGet,
    strip_content_type. cbn [req_headers].
  split.
  - intros ->. rewrite !String.eqb_refl. now rewrite !lookup_delete_eq.
  - intros Hne. apply String.eqb_neq in Hne. rewrite Hne. cbn [andb].
    now rewrite !set_if_truthy_other by discriminate.
Qed.

(** X10. Every request of the mobile client leaves the interceptor with
    an [X-Tenant-ID] header that is not empty: the tenant id in storage if
    there is a non-empty one, else the one of the environment if that is
    not empty, else [default].  The [X-API-Key] header is the key in
    storage, else the one of the environment, else what the request
    carried. *)
Theorem mobile_request_credentials (storage : gmap string string)
    (envTenant envKey : option string) (time : N) (config : RequestConfig) :
  let sent := req_headers (mobile_request toLowerCase storage envTenant envKey
                             time config) in
  let tenant := match str_truthy (storage !! "tenantId") with
                | Some t => t
                | None => match str_truthy envTenant with
                          | Some t => t
                          | None => "default"
                          end
                end in
  sent !! "X-Tenant-ID" = Some tenant
  ∧ tenant ≠ ""
  ∧ sent !! "X-API-Key"
    = match str_truthy (storage !! "apiKey") with
      | Some key => Some key
      | None => match str_truthy envKey with
                | Some key => Some key
                | None => req_headers config !! "X-API-Key"
                end
      end.
Proof.
  cbv zeta. unfold mobile_request. cbn [req_headers].
  rewrite !strip_content_type_other by discriminate.
  assert (∀ o s, str_truthy o = Some s → s ≠ "" ∧ str_truthy (Some s) = Some s) as Hts.
  { intros o s. unfold str_truthy. destruct o as [x|]; [|discriminate].
    destruct (String.eqb x "") eqn:Hx; [discriminate|].
    intros [= <-]. split; [now apply String.eqb_neq|now rewrite Hx]. }
  split; [|split].
  - rewrite set_if_truthy_other by discriminate. rewrite set_if_truthy_same.
    unfold opt_or.
    destruct (str_truthy (storage !! "tenantId")) as [t|] eqn:Ht.
    + destruct (Hts _ _ Ht) as [Hne Hs]. rewrite Hs. cbn.
      apply String.eqb_neq in Hne. rewrite Hne. cbn.
      rewrite Hne. reflexivity.
    + cbn. destruct (str_truthy envTenant) as [t|] eqn:He.
      * destruct (Hts _ _ He) as [Hne Hs].
        apply String.eqb_neq in Hne. cbn. rewrite Hne. cbn. now rewrite Hne.
      * reflexivity.
  - destruct (str_truthy (storage !! "tenantId")) as [t|] eqn:Ht;
      [apply (Hts _ _ Ht)|].
    destruct (str_truthy envTenant) as [t|] eqn:He;
      [apply (Hts _ _ He)|discriminate].
  - rewrite set_if_truthy_same. unfold opt_or.
    destruct (str_truthy (storage !! "apiKey")) as [k|] eqn:Hk.
    + destruct (Hts _ _ Hk) as [_ Hs]. now rewrite Hs.
    + destruct (str_truthy envKey) as [k|] eqn:He.
      * destruct (Hts _ _ He) as [_ Hs]. now rewrite Hs.
      * cbn. now rewrite set_if_truthy_other by discriminate.
Qed.

(** X11. On every request that is not a GET of one of the three open
    paths, and with no tenant id and no key in the environment, the
    interceptor of the mobile client turns out the request the one of the
    frontend client turns out from the same storage.  On a GET of an open
    path they part: the mobile client adds the tenant id. *)
Theorem interceptors_agree_off_open_paths (baseURL : string)
    (storage : gmap string string) (time : N) (config : RequestConfig) :
  (isSimpleGet toLowerCase URL_pathname baseURL config = false →
   mobile_request toLowerCase storage None None time config
   = frontend_request toLowerCase URL_pathname baseURL storage time config)
  ∧ (isSimpleGet toLowerCase URL_pathname baseURL config = true →
     req_headers (mobile_request toLowerCase storage None None time config)
       !! "X-Tenant-ID" = Some (str_or (storage !! "tenantId") "default")
     ∧ req_headers (frontend_request toLowerCase URL_pathname baseURL storage
                      time config) !! "X-Tenant-ID"
       = req_headers config !! "X-Tenant-ID").
Proof.
  assert (str_or (opt_or (str_truthy (storage !! "tenantId")) (str_truthy None))
            "default" = str_or (storage !! "tenantId") "default") as Htenant.
  { unfold opt_or, str_or, str_truthy.
    destruct (storage !! "tenantId") as [s|]; [|reflexivity].
    destruct (String.eqb s "") eqn:Hs; [reflexivity|]. now rewrite Hs, Hs. }
  assert (∀ h : gmap string string,
            set_if_truthy "X-API-Key" (opt_or (storage !! "apiKey") (str_truthy None)) h
            = set_if_truthy "X-API-Key" (storage !! "apiKey") h) as Hkey.
  { intros h. unfold set_if_truthy, opt_or.
    destruct (str_truthy (storage !! "apiKey")) as [k|] eqn:Hk; [|reflexivity].
    unfold str_truthy in *. destruct (storage !! "apiKey") as [x|]; [|discriminate].
    destruct (String.eqb x "") eqn:Hx; [discriminate|].
    injection Hk as <-. now rewrite Hx. }
  split.
  - intros Hsimple. unfold mobile_request, frontend_request.
    rewrite Hsimple, Htenant, Hkey. reflexivity.
  - intros Hsimple. split.
    + unfold mobile_request. cbn [req_headers].
      rewrite strip_content_type_other by discriminate.
      rewrite set_if_truthy_other by discriminate.
      rewrite set_if_truthy_same, Htenant.
      destruct (str_or_truthy (storage !! "tenantId") "default") as [_ ->];
        [discriminate|reflexivity].
    + now apply simple_get_keeps_header.
Qed.

(** X12. A response with status 401 makes the frontend client forget the
    stored API key, and only that entry of the storage, and sends the
    page to [/login]; a request made afterwards that carried no
    [X-API-Key] header of its own leaves the interceptor without one.
    Any other error leaves storage and location as they were. *)
Theorem unauthorized_forgets_key (baseURL : string) (status : option N)
    (localStorage : gmap string string) (href : string) (time : N)
    (config : RequestConfig) (k : string) :
  (status = Some 401 →
   let page := frontend_response_error status (localStorage, href) in
   fst page !! "apiKey" = None
   ∧ (k ≠ "apiKey" → fst page !! k = localStorage !! k)
   ∧ snd page = "/login"
   ∧ (req_headers config !! "X-API-Key" = None →
      req_headers (frontend_request toLowerCase URL_pathname baseURL (fst page)
                     time config) !! "X-API-Key" = None))
  ∧ (status ≠ Some 401 →
     frontend_response_error status (localStorage, href) = (localStorage, href)).
Proof.
  split.
  - intros ->. cbn. split; [apply lookup_delete_eq|].
    split; [intros Hk; now rewrite lookup_delete_ne|].
    split; [reflexivity|]. intros Hnone.
    unfold frontend_request. cbn [req_headers].
    rewrite strip_content_type_other by discriminate.
    destruct (isSimpleGet _ _ _ _); [exact Hnone|].
    rewrite set_if_truthy_same, lookup_delete_eq. cbn.
    now rewrite set_if_truthy_other by discriminate.
  - intros Hne. unfold frontend_response_error.
    destruct status as [n|]; [|reflexivity].
    destruct n as [|p]; [reflexivity|].
    repeat (destruct p as [p|p|]; try reflexivity).
    congruence.
Qed.

End InterceptorFacts.

Lemma frontend_request_credentials_witness :
  let sent := req_headers (frontend_request lower_ascii (path_after local_base)
                             local_base {["apiKey" := "secret"]} 7 post_chat) in
  sent !! "X-Tenant-ID" = Some "default"
  ∧ sent !! "X-API-Key" = Some "secret".
Proof.
  cbv zeta.
  destruct (frontend_request_credentials lower_ascii (path_after local_base)
              local_base {["apiKey" := "secret"]} 7 post_chat eq_refl)
    as (H1 & _ & H3).
  split; [exact H1|exact H3].
Defined.

Lemma simple_get_carries_no_credentials_witness :
  req_headers (frontend_request lower_ascii (path_after local_base)
                 local_base {["apiKey" := "secret"]} 7 get_health)
  = delete "Content-Type" (req_headers get_health).
Proof.
  apply (simple_get_carries_no_credentials lower_ascii (path_after local_base)
           local_base {["apiKey" := "secret"]} 7 get_health).
  reflexivity.
Defined.

Lemma get_requests_lose_content_type_witness :
  req_headers (frontend_request lower_ascii (path_after local_base)
                 local_base ∅ 7 get_health) !! "Content-Type" = None
  ∧ req_headers (mobile_request lower_ascii ∅ None None 7 post_chat)
      !! "Content-Type" = Some "application/json".
Proof.
  split.
  - destruct (get_requests_lose_content_type lower_ascii (path_after local_base)
                local_base ∅ None None 7 get_health) as [H _].
    destruct (H eq_refl) as [HF _]. exact HF.
  - destruct (get_requests_lose_content_type lower_ascii (path_after local_base)
                local_base ∅ None None 7 post_chat) as [_ H].
    destruct H as [_ HM]; [discriminate|]. exact HM.
Defined.

Lemma interceptors_agree_off_open_paths_witness :
  mobile_request lower_ascii {["tenantId" := "t1"]} None None 7 post_chat
  = frontend_request lower_ascii (path_after local_base) local_base
      {["tenantId" := "t1"]} 7 post_chat
  ∧ req_headers (mobile_request lower_ascii {["tenantId" := "t1"]} None None 7
                   get_health) !! "X-Tenant-ID" = Some "t1".
Proof.
  split.
  - apply (interceptors_agree_off_open_paths lower_ascii (path_after local_base)
             local_base {["tenantId" := "t1"]} 7 post_chat).
    reflexivity.
  - destruct (interceptors_agree_off_open_paths lower_ascii (path_after local_base)
                local_base {["tenantId" := "t1"]} 7 get_health) as [_ H].
    destruct (H eq_refl) as [HM _]. exact HM.
Defined.

Lemma unauthorized_forgets_key_witness :
  let page := frontend_response_error (Some 401)
                ({["apiKey" := "secret"; "tenantId" := "t1"]}, "/chat") in
  fst page !! "apiKey" = None
  ∧ fst page !! "tenantId" = Some "t1"
  ∧ req_headers (frontend_request lower_ascii (path_after local_base) local_base
                   (fst page) 7 post_chat) !! "X-API-Key" = None.
Proof.
  cbv zeta.
  destruct (unauthorized_forgets_key lower_ascii (path_after local_base)
              local_base (Some 401) {["apiKey" := "secret"; "tenantId" := "t1"]}
              "/chat" 7 post_chat "tenantId") as [H _].
  destruct (H eq_refl) as (H1 & H2 & _ & H4).
  split; [exact H1|]. split.
  - rewrite H2; [reflexivity|discriminate].
  - apply H4. reflexivity.
Defined.

(** * Properties of the chat store *)

Lemma replace_session_lookup (current updated : ChatSession)
    (l : list ChatSession) (i : nat) (x : ChatSession) :
  l !! i = Some x →
  replace_session current updated l !! i
  = Some (if String.eqb (session_id x) (session_id current) then updated else x).
Proof. intros H. unfold replace_session. now rewrite list_lookup_fmap, H. Qed.

Lemma replace_session_listed (current updated : ChatSession) (l : list ChatSession) :
  current ∈ l → updated ∈ replace_session current updated l.
Proof.
  intros Hin. apply list_elem_of_lookup in Hin as [i Hi].
  apply list_elem_of_lookup. exists i.
  rewrite (replace_session_lookup _ _ _ _ _ Hi). now rewrite String.eqb_refl.
Qed.

Lemma put_session_listed (current updated : ChatSession) (s : ChatState) :
  current ∈ sessions s → listed (put_session current updated s).
Proof. intros H. now apply replace_session_listed. Qed.

Lemma without_session_elem (sessionId : string) (l : list ChatSession)
    (x : ChatSession) :
  x ∈ without_session sessionId l
  ↔ String.eqb (session_id x) sessionId = false ∧ x ∈ l.
Proof. unfold without_session. now rewrite list_elem_of_filter. Qed.

Lemma head_listed (l : list ChatSession) :
  match head l with Some c => c ∈ l | None => True end.
Proof. destruct l; [exact I|left]. Qed.

Lemma frontend_act_listed (localStorage : gmap string string) (a : StoreAction)
    (s : ChatState) :
  keeps_current a → listed s → listed (frontend_act localStorage a s).
Proof.
  intros Ha Hs. unfold listed in Hs.
  destruct a; cbn [frontend_act set_field]; try exact Hs; try destruct Ha.
  - unfold addMessage. destruct (currentSession s) as [c|] eqn:Hc.
    + now apply put_session_listed.
    + unfold listed. now rewrite ?Hc.
  - unfold updateMessage. destruct (currentSession s) as [c|] eqn:Hc.
    + now apply put_session_listed.
    + unfold listed. now rewrite ?Hc.
  - unfold listed. cbn. left.
  - unfold FrontendStore.deleteSession, current_is, listed.
    destruct (currentSession s) as [c|] eqn:Hc.
    + destruct (String.eqb (session_id c) sessionId) eqn:Hid; cbn.
      * apply head_listed.
      * rewrite ?Hc. now apply without_session_elem.
    + cbn. now rewrite ?Hc.
  - unfold listed. cbn. left.
Qed.

Lemma mobile_act_listed (a : StoreAction) (s : ChatState) :
  keeps_current a → listed s → listed (mobile_act a s).
Proof.
  intros Ha Hs. unfold listed in Hs.
  destruct a; cbn [mobile_act set_field]; try exact Hs; try destruct Ha.
  - unfold addMessage. destruct (currentSession s) as [c|] eqn:Hc.
    + now apply put_session_listed.
    + unfold listed. now rewrite ?Hc.
  - unfold updateMessage. destruct (currentSession s) as [c|] eqn:Hc.
    + now apply put_session_listed.
    + unfold listed. now rewrite ?Hc.
  - unfold listed. cbn. left.
  - unfold MobileStore.deleteSession, current_is, listed. cbn.
    destruct (currentSession s) as [c|] eqn:Hc; [|exact I].
    destruct (String.eqb (session_id c) sessionId) eqn:Hid.
    + apply head_listed.
    + now apply without_session_elem.
  - exact I.
Qed.

(** X13. In both stores the current session, when there is one, is one
    of the sessions of the list, and stays so under every action but
    [setCurrentSession]: adding and updating messages, creating, deleting
    and clearing sessions and the plain setters. *)
Theorem current_session_stays_listed (localStorage : gmap string string)
    (actions : list StoreAction) (s : ChatState) :
  listed s →
  Forall keeps_current actions →
  listed (foldl (λ s' a, frontend_act localStorage a s') s actions)
  ∧ listed (foldl (λ s' a, mobile_act a s') s actions).
Proof.
  intros Hs Hacts. split.
  - revert s Hs. induction Hacts as [|a actions Ha _ IH]; intros s Hs; [exact Hs|].
    cbn. apply IH. now apply frontend_act_listed.
  - revert s Hs. induction Hacts as [|a actions Ha _ IH]; intros s Hs; [exact Hs|].
    cbn. apply IH. now apply mobile_act_listed.
Qed.

Lemma current_session_stays_listed_witness :
  listed (foldl (λ s' a, frontend_act ∅ a s') initial_store
            [CreateSession None "s1" "t1" 1 1;
             AddMessage {["id" := VJson (JString "m1")]} 2;
             CreateSession (Some "b") "s2" "t2" 3 3;
             DeleteSession "s2" "t3"]).
Proof.
  destruct (current_session_stays_listed ∅
              [CreateSession None "s1" "t1" 1 1;
               AddMessage {["id" := VJson (JString "m1")]} 2;
               CreateSession (Some "b") "s2" "t2" 3 3;
               DeleteSession "s2" "t3"] initial_store) as [H _].
  - exact I.
  - repeat constructor.
  - exact H.
Defined.

(** X14. [addMessage] puts the message at the end of the messages of the
    current session and leaves the messages before it as they were; the
    list keeps its length, every session of the list with the id of the
    current one becomes the new current session, and the others stay.
    Without a current session the store is left as it is: the message is
    dropped. *)
Theorem add_message_appends (message : ChatMessage) (time : N) (s : ChatState) :
  (∀ current, currentSession s = Some current →
     let c' := with_messages (session_messages current ++ [message]) time current in
     currentSession (addMessage message time s) = Some c'
     ∧ session_messages c' = session_messages current ++ [message]
     ∧ session_id c' = session_id current
     ∧ length (sessions (addMessage message time s)) = length (sessions s)
     ∧ ∀ i x, sessions s !! i = Some x →
         sessions (addMessage message time s) !! i
         = Some (if String.eqb (session_id x) (session_id current) then c' else x))
  ∧ (currentSession s = None → addMessage message time s = s).
Proof.
  split.
  - intros current Hc c'. unfold addMessage. rewrite Hc. cbn.
    repeat split; try reflexivity.
    + unfold replace_session. now rewrite length_map.
    + intros i x Hi. now apply replace_session_lookup.
  - intros Hc. unfold addMessage. now rewrite Hc.
Qed.

Lemma add_message_appends_witness :
  let s := snd (FrontendStore.createSession None "s1" "t1" 1 1 ∅ initial_store) in
  addMessage {["id" := VJson (JString "m1")]} 2 initial_store = initial_store
  ∧ (session_messages <$> currentSession
       (addMessage {["id" := VJson (JString "m1")]} 2 s))
    = Some [{["id" := VJson (JString "m1")]}].
Proof.
  cbv zeta. split.
  - apply (add_message_appends {["id" := VJson (JString "m1")]} 2 initial_store).
    reflexivity.
  - destruct (add_message_appends {["id" := VJson (JString "m1")]} 2
      (snd (FrontendStore.createSession None "s1" "t1" 1 1 ∅ initial_store)))
      as [H _].
    destruct (H _ eq_refl) as (H1 & _).
    rewrite H1. reflexivity.
Defined.

Lemma update_message_lookup (messageId : string) (updates : ChatMessage)
    (time : N) (s : ChatState) (current : ChatSession) :
  currentSession s = Some current →
  ∃ c', currentSession (updateMessage messageId updates time s) = Some c'
    ∧ session_messages c'
      = map (λ msg, if has_id messageId msg then updates ∪ msg else msg)
            (session_messages current).
Proof.
  intros Hc. unfold updateMessage. rewrite Hc. eexists. split; reflexivity.
Qed.

Lemma spread_lookup (updates msg : ChatMessage) (k : string) :
  (updates ∪ msg) !! k
  = match updates !! k with Some v => Some v | None => msg !! k end.
Proof.
  rewrite lookup_union. destruct (updates !! k), (msg !! k); reflexivity.
Qed.

(** X15. [updateMessage] keeps the number and the order of the messages
    of the current session.  A message with the given id takes every key
    of the update with its value and keeps its other keys; a message with
    another id is left as it is; and when no message has the id, the
    messages are the same as before. *)
Theorem update_message_touches_only_its_id (messageId : string)
    (updates : ChatMessage) (time : N) (s : ChatState) (current : ChatSession) :
  currentSession s = Some current →
  ∃ c', currentSession (updateMessage messageId updates time s) = Some c'
    ∧ length (session_messages c') = length (session_messages current)
    ∧ (∀ i msg, session_messages current !! i = Some msg →
         ∃ msg', session_messages c' !! i = Some msg'
           ∧ (has_id messageId msg = false → msg' = msg)
           ∧ (has_id messageId msg = true →
              ∀ k, msg' !! k = match updates !! k with
                               | Some v => Some v
                               | None => msg !! k
                               end))
    ∧ (Forall (λ msg, has_id messageId msg = false) (session_messages current) →
       session_messages c' = session_messages current).
Proof.
  intros Hc.
  destruct (update_message_lookup messageId updates time s current Hc)
    as (c' & Hc' & Hmsgs).
  exists c'. split; [exact Hc'|]. rewrite Hmsgs. clear Hmsgs.
  split; [now rewrite length_map|]. split.
  - intros i msg Hi. rewrite list_lookup_fmap, Hi. cbn. eexists. split; [reflexivity|].
    destruct (has_id messageId msg); split; try discriminate; try reflexivity.
    intros _ k. apply spread_lookup.
  - intros Hnone. induction Hnone as [|msg l Hm _ IH]; [reflexivity|].
    cbn. rewrite Hm. f_equal. exact IH.
Qed.

Lemma update_message_touches_only_its_id_witness :
  let s := addMessage {["id" := VJson (JString "m1"); "content" := VJson (JString "hi")]} 2
             (snd (MobileStore.createSession None "s1" "t1" 1 1 initial_store)) in
  ∃ c', currentSession
          (updateMessage "m1" {["suggestions" := VJson (JArray [JString "a"])]} 3 s)
        = Some c'
        ∧ length (session_messages c') = 1%nat.
Proof.
  cbv zeta.
  destruct (update_message_touches_only_its_id "m1"
    {["suggestions" := VJson (JArray [JString "a"])]} 3
    (addMessage {["id" := VJson (JString "m1"); "content" := VJson (JString "hi")]} 2
       (snd (MobileStore.createSession None "s1" "t1" 1 1 initial_store)))
    _ eq_refl) as (c' & H1 & H2 & _).
  exists c'. split; [exact H1|exact H2].
Defined.

(** X16. After [deleteSession(id)], in both stores, no session of the
    list has the id and the current session does not have it either; the
    sessions with other ids are all still there, in their order.  The two
    stores leave the same list and the same current session.  They differ
    in the thread id: the mobile store keeps it, the frontend store
    replaces it by a fresh one when the current session was deleted and
    no session is left. *)
Theorem delete_session_removes_it (sessionId fresh : string) (s : ChatState) :
  let sF := FrontendStore.deleteSession sessionId fresh s in
  let sM := MobileStore.deleteSession sessionId s in
  sessions sF = filter (λ x, String.eqb (session_id x) sessionId = false) (sessions s)
  ∧ sessions sM = sessions sF
  ∧ currentSession sM = currentSession sF
  ∧ Forall (λ x, session_id x ≠ sessionId) (sessions sF)
  ∧ current_is sessionId sF = false
  ∧ (listed s → listed sF)
  ∧ store_threadId sM = store_threadId s
  ∧ store_threadId sF
    = if current_is sessionId s
      then match sessions sF with [] => Some fresh | _ => store_threadId s end
      else store_threadId s.
Proof.
  cbv zeta.
  assert (Forall (λ x, session_id x ≠ sessionId)
            (without_session sessionId (sessions s))) as Hall.
  { apply Forall_forall. intros x Hx. apply without_session_elem in Hx as [Hx _].
    now apply String.eqb_neq. }
  unfold FrontendStore.deleteSession, MobileStore.deleteSession.
  destruct (current_is sessionId s) eqn:Hcur; cbn.
  - repeat split; try reflexivity; try exact Hall.
    + unfold current_is. cbn.
      destruct (without_session sessionId (sessions s)) as [|x l] eqn:Hl;
        [reflexivity|]. cbn.
      apply Forall_cons in Hall as [Hx _]. now apply String.eqb_neq.
    + intros _. unfold listed. cbn. apply head_listed.
    + destruct (without_session sessionId (sessions s)); reflexivity.
  - repeat split; try reflexivity; try exact Hall.
    + exact Hcur.
    + unfold listed, current_is in *. cbn.
      destruct (currentSession s) as [c|]; [|auto].
      intros Hin. now apply without_session_elem.
Qed.

Lemma delete_session_removes_it_witness :
  let s := snd (FrontendStore.createSession None "s1" "t1" 1 1 ∅ initial_store) in
  listed (FrontendStore.deleteSession "s1" "t9" s)
  ∧ store_threadId (FrontendStore.deleteSession "s1" "t9" s) = Some "t9"
  ∧ store_threadId (MobileStore.deleteSession "s1" s) = Some "t1".
Proof.
  cbv zeta.
  destruct (delete_session_removes_it "s1" "t9"
    (snd (FrontendStore.createSession None "s1" "t1" 1 1 ∅ initial_store)))
    as (_ & _ & _ & _ & _ & H6 & H7 & H8).
  split; [apply H6; left|]. split; [exact H8|exact H7].
Defined.

(** * Properties of the component that calls the service *)

(** X17. The callback the component hands to the service changes the
    store only for an event whose [event] member is the string [react]
    and whose [suggestions] member is truthy; the final message as the
    API document shows it, which has no [event] member, changes nothing.
    For such an event, every message of the current session with the id
    the callback was made for gets the [suggestions] of the event and
    keeps its other keys, and the other messages stay as they are. *)
Theorem suggestions_reach_the_message (messageId : string) (event : JSValue)
    (time : N) (s : ChatState) :
  (is_react event && truthy (get_prop "suggestions" event) = false →
   on_suggestion messageId event time s = s)
  ∧ on_suggestion messageId documented_final time s = s
  ∧ (∀ v current,
       is_react event = true →
       get_prop "suggestions" event = Some v →
       truthy (Some v) = true →
       currentSession s = Some current →
       ∃ c', currentSession (on_suggestion messageId event time s) = Some c'
         ∧ length (session_messages c') = length (session_messages current)
         ∧ ∀ i msg, session_messages current !! i = Some msg →
             ∃ msg', session_messages c' !! i = Some msg'
               ∧ (has_id messageId msg = false → msg' = msg)
               ∧ (has_id messageId msg = true →
                  msg' !! "suggestions" = Some (VJson v)
                  ∧ ∀ k, k ≠ "suggestions" → msg' !! k = msg !! k)).
Proof.
  split; [|split].
  - intros H. unfold on_suggestion. now rewrite H.
  - reflexivity.
  - intros v current Hreact Hsug Htruthy Hc.
    unfold on_suggestion. rewrite Hreact, Hsug, Htruthy. cbn [andb].
    destruct (update_message_lookup messageId
                {["suggestions" := VJson v]} time s current Hc)
      as (c' & H1 & Hmsgs).
    exists c'. split; [exact H1|]. rewrite Hmsgs.
    split; [now rewrite length_map|].
    intros i msg Hi. rewrite list_lookup_fmap, Hi. cbn. eexists.
    split; [reflexivity|].
    destruct (has_id messageId msg); split; try discriminate; try reflexivity.
    intros _. split.
    + rewrite spread_lookup. now rewrite lookup_singleton_eq.
    + intros k Hk. rewrite spread_lookup. now rewrite lookup_singleton_ne.
Qed.

Lemma suggestions_reach_the_message_witness :
  let s := addMessage {["id" := VJson (JString "m1")]} 2
             (snd (FrontendStore.createSession None "s1" "t1" 1 1 ∅ initial_store)) in
  on_suggestion "m1" final_abc 3 s
  = updateMessage "m1"
      {["suggestions" := VJson (JArray [JString "a"; JString "b"; JString "c"])]} 3 s
  ∧ on_suggestion "m1" (JObject [("event", JString "suggest")]) 3 s = s.
Proof.
  cbv zeta. split; [reflexivity|].
  destruct (suggestions_reach_the_message "m1"
    (JObject [("event", JString "suggest")]) 3
    (addMessage {["id" := VJson (JString "m1")]} 2
       (snd (FrontendStore.createSession None "s1" "t1" 1 1 ∅ initial_store))))
    as [H _].
  apply H. reflexivity.
Defined.

Lemma step_settled (e : Event) (w : World) :
  not_start e → e ≠ CallStop → settled w → settled (step frontend e w).
Proof.
  intros He Hstop Hw. pose proof (checkpoint_nil w (proj1 Hw)) as Hcp.
  destruct e as [t cb c| | |h p|h|ms]; cbn [step]; rewrite ?Hcp.
  - destruct He.
  - congruence.
  - exact Hw.
  - now apply dispatch_message_settled.
  - now apply dispatch_error_settled.
  - now apply advance_settled.
Qed.

Lemma start_settled (t : string) (cb : Callback) (c : bool) (w : World) :
  settled w → settled (run frontend [CallStart t cb c; EndOfTask] w).
Proof.
  intros Hw.
  change (run frontend [CallStart t cb c; EndOfTask] w)
    with (checkpoint (step frontend (CallStart t cb c) w)).
  rewrite step_start. apply (in_flight_checkpoint frontend).
  now apply requested_in_flight.
Qed.

Lemma fire_one_settled (c : bool) (t : DebounceTimer) (w : World) :
  settled w → settled (fire_one c t w).
Proof.
  intros Hw. unfold fire_one.
  change (run frontend [Advance (dt_due t - now w);
                        CallStart (dt_thread t) (suggestion_callback (dt_id t)) c;
                        EndOfTask] w)
    with (run frontend [CallStart (dt_thread t) (suggestion_callback (dt_id t)) c;
                        EndOfTask]
            (step frontend (Advance (dt_due t - now w)) w)).
  apply start_settled. apply step_settled; [exact I|discriminate|exact Hw].
Qed.

Lemma ui_step_settled (e : UiEvent) (u : Chat) :
  settled (service u) → settled (service (ui_step e u)).
Proof.
  intros Hu.
  destruct e as [t m|h p|h|ms c];
    unfold ui_step, request, on_service, elapse; cbn [service].
  - exact Hu.
  - apply (step_settled (Message h p)); [exact I|discriminate|exact Hu].
  - apply (step_settled (Error h)); [exact I|discriminate|exact Hu].
  - apply (step_settled (Advance _)); [exact I|discriminate|].
    generalize (filter (λ t, is_due (now (service u) + ms) (dt_due t) = true)
                  (waiting u)).
    intros due. revert Hu. generalize (service u).
    induction due as [|t due IH]; intros w Hw; [exact Hw|].
    cbn. apply IH. now apply fire_one_settled.
Qed.

Lemma ui_run_settled (evs : list UiEvent) :
  settled (service (ui_run evs chat_init)).
Proof.
  assert (settled (service chat_init)) as H0.
  { split; [reflexivity|]. intros h o Hh. discriminate Hh. }
  revert H0. generalize chat_init.
  induction evs as [|e evs IH]; intros u Hu; [exact Hu|].
  cbn. apply IH. now apply ui_step_settled.
Qed.

(** X18. Whatever is asked of the component, and whenever: requests for
    suggestions, notifications of the streams, time passing, streams
    that can or cannot be created, the service is between tasks with an
    empty microtask queue, only the stream it holds can be open, and so
    at most one stream is open. *)
Theorem debounced_calls_never_overlap (evs : list UiEvent) :
  settled (service (ui_run evs chat_init))
  ∧ (length (open_streams (service (ui_run evs chat_init))) ≤ 1)%nat.
Proof.
  pose proof (ui_run_settled evs) as H.
  split; [exact H|]. apply settled_at_most_one. apply H.
Qed.

Lemma request_waiting (t m : string) (u : Chat) :
  one_waiting u →
  waiting (request t m u)
  = [{| dt_id := next_timer u; dt_due := now (service u) + 500;
        dt_thread := t; dt_message := m |}].
Proof.
  intros [_ Hw]. unfold request, clear_waiting. cbn [waiting].
  destruct Hw as [->|(x & -> & -> & Hx)].
  - destruct (suggestionTimeoutRef u) as [id|]; [destruct (Nat.eqb id 0)|];
      reflexivity.
  - apply Nat.eqb_neq in Hx. rewrite Hx.
    rewrite filter_cons. destruct (decide (Nat.eqb (dt_id x) (dt_id x) = false)) as [H|H].
    + rewrite Nat.eqb_refl in H. discriminate H.
    + reflexivity.
Qed.

Lemma ui_step_one_waiting (e : UiEvent) (u : Chat) :
  one_waiting u → one_waiting (ui_step e u).
Proof.
  intros [Hnext Hw]. destruct e as [t m|h p|h|ms c]; cbn.
  - split; [cbn; lia|]. right.
    exists {| dt_id := next_timer u; dt_due := now (service u) + 500;
              dt_thread := t; dt_message := m |}.
    split; [apply request_waiting; split; assumption|].
    split; [reflexivity|exact Hnext].
  - split; [exact Hnext|exact Hw].
  - split; [exact Hnext|exact Hw].
  - split; [exact Hnext|]. cbn.
    destruct Hw as [->|(x & -> & Href & Hx)]; [now left|].
    rewrite filter_cons.
    destruct (decide (is_due (now (service u) + ms) (dt_due x) = false));
      [right; eauto|now left].
Qed.

Lemma ui_run_one_waiting (evs : list UiEvent) (u : Chat) :
  one_waiting u → one_waiting (ui_run evs u).
Proof.
  revert u. induction evs as [|e evs IH]; intros u Hu; [exact Hu|].
  cbn. apply IH. now apply ui_step_one_waiting.
Qed.

Lemma chat_init_one_waiting : one_waiting chat_init.
Proof. split; [discriminate|now left]. Qed.

(** X19. The component never has more than one of its timers waiting;
    a request made while one waits takes its place, so that of the
    requests made within 500 ms of each other only the last one reaches
    the service. *)
Theorem latest_request_replaces_waiting (evs : list UiEvent) (t m : string) :
  let u := ui_run evs chat_init in
  (length (waiting u) ≤ 1)%nat
  ∧ waiting (ui_step (Request t m) u)
    = [{| dt_id := next_timer u; dt_due := now (service u) + 500;
          dt_thread := t; dt_message := m |}].
Proof.
  cbv zeta.
  pose proof (ui_run_one_waiting evs chat_init chat_init_one_waiting) as Hu.
  split.
  - destruct Hu as [_ [->|(x & -> & _)]]; cbn; lia.
  - now apply request_waiting.
Qed.

Lemma advance_heap_length (ms : N) (w : World) :
  length (heap (advance ms w)) = length (heap w).
Proof.
  unfold advance. rewrite fire_eq.
  destruct (filter _ (timers w)); cbn; [reflexivity|].
  destruct (eventSource w); [apply length_alter|reflexivity].
Qed.

Lemma advance_leaves_later (ms : N) (w : World) :
  Forall (λ d, now w + ms < d) (timers (advance ms w)).
Proof.
  rewrite advance_timers. apply Forall_forall. intros d Hd.
  apply list_elem_of_filter in Hd as [Hd _].
  unfold is_due in Hd. apply N.leb_gt in Hd. exact Hd.
Qed.

(** When no timer is due, the passing of time moves the clock only. *)
Lemma advance_quiet (ms : N) (w : World) :
  Forall (λ d, now w + ms < d) (timers w) →
  eventSource (advance ms w) = eventSource w
  ∧ suggestionCallbacks (advance ms w) = suggestionCallbacks w
  ∧ heap (advance ms w) = heap w
  ∧ now (advance ms w) = now w + ms.
Proof.
  intros Hlater. unfold advance. rewrite fire_eq.
  assert (filter (λ d, is_due (now w + ms) d = true) (timers w) = []) as ->.
  { induction Hlater as [|d l Hd _ IH]; [reflexivity|].
    rewrite filter_cons, IH.
    destruct (decide (is_due (now w + ms) d = true)) as [H|H]; [|reflexivity].
    unfold is_due in H. apply N.leb_le in H. lia. }
  repeat split; reflexivity.
Qed.

Lemma elapse_single (ms : N) (c : bool) (u : Chat) (tm : DebounceTimer) :
  waiting u = [tm] →
  is_due (now (service u) + ms) (dt_due tm) = true →
  service (elapse ms c u)
  = step frontend
      (Advance (now (service u) + ms - now (fire_one c tm (service u))))
      (fire_one c tm (service u))
  ∧ waiting (elapse ms c u) = [].
Proof.
  intros Hw Hdue. unfold elapse. cbn [service waiting]. rewrite Hw.
  rewrite !filter_cons, !filter_nil.
  destruct (decide (is_due (now (service u) + ms) (dt_due tm) = true)) as [_|Hn];
    [|contradiction].
  destruct (decide (is_due (now (service u) + ms) (dt_due tm) = false)) as [Hn|_];
    [congruence|].
  split; reflexivity.
Qed.

(** X20. A request that no other request follows for 500 ms reaches the
    service when that time is up: a new stream for its thread is created,
    it is open, the service holds it with its handlers installed, and the
    callback for the request is registered under the thread.  This is so
    whatever went before. *)
Theorem undisturbed_request_opens_stream (evs : list UiEvent) (t m : string) :
  let u := ui_run evs chat_init in
  let u' := ui_run [Request t m; Elapse 500 true] u in
  let h := length (heap (service u)) in
  waiting u' = []
  ∧ now (service u') = now (service u) + 500
  ∧ eventSource (service u') = Some h
  ∧ heap (service u') !! h
    = Some {| es_thread := t; es_closed := false;
              es_onmessage := Some t; es_onerror := true |}
  ∧ suggestionCallbacks (service u') !! t
    = Some (suggestion_callback (next_timer u)).
Proof.
  intros u u' h.
  pose proof (ui_run_one_waiting evs chat_init chat_init_one_waiting) as Hone.
  pose proof (ui_run_settled evs) as Hsettled.
  fold u in Hone, Hsettled.
  set (tm := {| dt_id := next_timer u; dt_due := now (service u) + 500;
                dt_thread := t; dt_message := m |}).
  set (w := service u) in *.
  (* the world when the timer of the component fires *)
  assert (step frontend (Advance (dt_due tm - now w)) w = advance 500 w) as Hwa.
  { cbn [step dt_due tm]. rewrite (checkpoint_nil w (proj1 Hsettled)).
    f_equal. lia. }
  pose proof (advance_settled 500 w Hsettled) as Hsa.
  pose proof (advance_now 500 w) as Hnow_a.
  pose proof (advance_leaves_later 500 w) as Hlater.
  pose proof (advance_heap_length 500 w) as Hlen.
  remember (advance 500 w) as wa eqn:Ewa.
  (* the world after the call and the end of its task *)
  set (cb := suggestion_callback (next_timer u)).
  set (hp := match eventSource wa with
             | Some x => alter close_obj x (heap wa)
             | None => heap wa
             end).
  assert (length hp = length (heap w)) as Hhp.
  { subst hp. destruct (eventSource wa); rewrite ?length_alter; exact Hlen. }
  set (wb := attached t (length hp)
               (with_jobs [] (requested AwaitResume t cb true wa))).
  assert (now wb = now wa) as Hnow_b by reflexivity.
  assert (eventSource wb = Some (length hp)) as Hes_b by reflexivity.
  assert (heap wb
          = alter (handlers_obj t) (length hp)
              (hp ++ [{| es_thread := t; es_closed := false;
                         es_onmessage := None; es_onerror := false |}]))
    as Hheap_b by reflexivity.
  assert (suggestionCallbacks wb !! t = Some cb) as Hcb_b.
  { subst wb. cbn [suggestionCallbacks attached with_jobs requested].
    apply lookup_insert_eq. }
  assert (fire_one true tm w = wb) as Hwb.
  { unfold fire_one.
    change (run frontend [Advance (dt_due tm - now w);
                          CallStart (dt_thread tm) (suggestion_callback (dt_id tm)) true;
                          EndOfTask] w)
      with (checkpoint (step frontend (CallStart t cb true)
                          (step frontend (Advance (dt_due tm - now w)) w))).
    rewrite Hwa, step_start. cbn [job_of].
    assert (jobs (requested AwaitResume t cb true wa)
            = [AwaitResume t (Some (length hp))]) as Hjobs.
    { unfold requested. cbn [jobs]. now rewrite (proj1 Hsa). }
    rewrite (checkpoint_cons _ _ _ Hjobs).
    now rewrite checkpoint_nil. }
  assert (Forall (λ d, now wb + 0 < d) (timers wb)) as Hquiet.
  { rewrite Hnow_b, Hnow_a. subst wb. cbn [timers now attached with_jobs requested].
    apply Forall_app. split.
    - eapply Forall_impl; [exact Hlater|]. intros d Hd. cbn in Hd. lia.
    - constructor; [|constructor]. rewrite Hnow_a. lia. }
  (* the whole step *)
  assert (is_due (now (service (request t m u)) + 500) (dt_due tm) = true) as Hdue.
  { cbn. unfold is_due. apply N.leb_refl. }
  destruct (elapse_single 500 true (request t m u) tm
              (request_waiting t m u Hone) Hdue) as [Hsvc Hwait].
  change (service (request t m u)) with w in Hsvc.
  rewrite Hwb in Hsvc.
  assert (service u' = advance 0 wb) as Hu'.
  { subst u'. unfold ui_run. cbn [foldl ui_step]. rewrite Hsvc.
    cbn [step]. rewrite checkpoint_nil by reflexivity.
    f_equal. rewrite Hnow_b, Hnow_a. lia. }
  destruct (advance_quiet 0 wb Hquiet) as (Hes & Hcbs & Hheap & Hnow).
  split; [exact Hwait|].
  rewrite Hu', Hes, Hcbs, Hheap, Hnow.
  split; [rewrite Hnow_b, Hnow_a; lia|].
  split; [subst h; now rewrite Hes_b, Hhp|].
  split; [|exact Hcb_b].
  subst h. rewrite Hheap_b, <- Hhp. clearbody hp.
  rewrite list_lookup_alter_eq.
  rewrite lookup_app_r by reflexivity. rewrite Nat.sub_diag. reflexivity.
Qed.

(** * Further properties of the suggestion stream *)

(** X21. No call of a method, no end of a task, no error of a stream and
    no timer makes the service call a callback: only the delivery of a
    message does, and one message makes at most one call, of the callback
    registered under the thread of the handler, with the value the
    message denotes. *)
Theorem only_messages_call_back (i : Impl) (e : Event) (w : World) :
  ((∀ h p, e ≠ Message h p) → trace (step i e w) = trace w)
  ∧ (∀ h p, e = Message h p →
       trace (step i e w) = trace w
       ∨ ∃ o t cb v, heap (checkpoint w) !! h = Some o
           ∧ es_onmessage o = Some t
           ∧ suggestionCallbacks (checkpoint w) !! t = Some cb
           ∧ p = Parsed v
           ∧ trace (step i e w) = trace w ++ [(cb_id cb, v)]).
Proof.
  split.
  - intros Hnot. destruct e as [t cb c| | |h p|h|ms]; cbn [step].
    + unfold exec. now rewrite start_eq.
    + now rewrite exec_stop.
    + apply checkpoint_trace.
    + now destruct (Hnot h p).
    + now rewrite dispatch_error_trace, checkpoint_trace.
    + now rewrite advance_trace, checkpoint_trace.
  - intros h p ->. cbn [step]. unfold dispatch_message.
    destruct (heap (checkpoint w) !! h) as [o|] eqn:Hh;
      [|left; apply checkpoint_trace].
    destruct (es_closed o); [left; apply checkpoint_trace|].
    destruct (es_onmessage o) as [t|] eqn:Ho; [|left; apply checkpoint_trace].
    destruct p as [|v]; [left; apply checkpoint_trace|].
    unfold exec. rewrite onmessage_parsed. cbn [snd]. rewrite received_trace.
    destruct (suggestionCallbacks (checkpoint w) !! t) as [cb|] eqn:Hcb.
    + right. exists o, t, cb, v. rewrite checkpoint_trace. auto.
    + left. now rewrite app_nil_r, checkpoint_trace.
Qed.

Lemma only_messages_call_back_witness :
  let w := run frontend [CallStart "t1" cb1 true; EndOfTask] init in
  trace (step frontend (Error 0%nat) w) = trace w
  ∧ trace (step frontend (Advance 15000) w) = trace w.
Proof.
  cbv zeta. split.
  - destruct (only_messages_call_back frontend (Error 0%nat)
      (run frontend [CallStart "t1" cb1 true; EndOfTask] init)) as [H _].
    apply H. discriminate.
  - destruct (only_messages_call_back frontend (Advance 15000)
      (run frontend [CallStart "t1" cb1 true; EndOfTask] init)) as [H _].
    apply H. discriminate.
Defined.

(** X22. Where every call of [startSuggestionStream] is the last call of
    its task, in either class, at most one stream is open after every
    event, and between tasks, when the microtask queue is empty, a stream
    that is open is the one the manager holds: none is left behind. *)
Theorem serial_calls_leave_no_stream_behind (i : Impl) (evs : list Event) :
  serial evs →
  let w := run i evs init in
  (length (open_streams w) ≤ 1)%nat
  ∧ (jobs w = [] →
     ∀ h o, heap w !! h = Some o → es_closed o = false → eventSource w = Some h).
Proof.
  intros Hs w.
  assert (settled init) as Hinit.
  { split; [reflexivity|]. intros h o Hh. discriminate Hh. }
  destruct (serial_invariant i evs false init Hs Hinit) as [H|H]; fold w in H.
  - split; [apply settled_at_most_one, H|]. intros _. apply H.
  - split; [now apply (in_flight_at_most_one i)|].
    destruct H as (t & p & Hq & _). intros Hnil. rewrite Hnil in Hq.
    discriminate Hq.
Qed.

Lemma serial_calls_leave_no_stream_behind_witness :
  (length (open_streams
     (run mobile [CallStart "t1" cb1 true; EndOfTask;
                  CallStart "t2" cb2 true; Message 1%nat (Parsed update_ab)]
        init)) ≤ 1)%nat.
Proof.
  destruct (serial_calls_leave_no_stream_behind mobile
    [CallStart "t1" cb1 true; EndOfTask;
     CallStart "t2" cb2 true; Message 1%nat (Parsed update_ab)] eq_refl)
    as [H _].
  exact H.
Defined.

(** X23. The [onerror] handler does not ask which stream the error is
    from: an error notification of any stream that has had its handlers
    installed, the one the manager holds or one it has let go of, does
    what [stopSuggestionStream()] does to the session of the moment, and
    calls no callback. *)
Theorem any_stream_error_tears_down (i : Impl) (w : World) (h : nat)
    (o : EventSourceObj) :
  jobs w = [] →
  heap w !! h = Some o →
  es_onerror o = true →
  step i (Error h) w = exec stopSuggestionStream w
  ∧ idle (step i (Error h) w)
  ∧ trace (step i (Error h) w) = trace w
  ∧ ∀ held, eventSource w = Some held →
      es_closed <$> heap (step i (Error h) w) !! held
      = (λ _, true) <$> heap w !! held.
Proof.
  intros Hq Hh Ho.
  assert (step i (Error h) w = stopped w) as ->.
  { cbn [step]. rewrite (checkpoint_nil w Hq). unfold dispatch_error.
    rewrite Hh, Ho. unfold onerror. apply exec_stop. }
  rewrite exec_stop. split; [reflexivity|]. split; [apply stopped_idle|].
  split; [reflexivity|].
  intros held Hheld. cbn. rewrite Hheld, list_lookup_alter_eq.
  destruct (heap w !! held); reflexivity.
Qed.

Lemma any_stream_error_tears_down_witness :
  let w := run frontend [CallStart "t1" cb1 true; CallStart "t2" cb2 true;
                         EndOfTask] init in
  eventSource w = Some 1%nat
  ∧ es_closed <$> heap w !! 0%nat = Some false
  ∧ idle (step frontend (Error 0%nat) w)
  ∧ es_closed <$> heap (step frontend (Error 0%nat) w) !! 1%nat = Some true.
Proof.
  cbv zeta.
  destruct (any_stream_error_tears_down frontend
    (run frontend [CallStart "t1" cb1 true; CallStart "t2" cb2 true;
                   EndOfTask] init) 0%nat
    {| es_thread := "t1"; es_closed := false;
       es_onmessage := Some "t1"; es_onerror := true |}
    eq_refl eq_refl eq_refl) as (_ & H2 & _ & H4).
  split; [reflexivity|]. split; [reflexivity|]. split; [exact H2|].
  rewrite (H4 1%nat eq_refl). reflexivity.
Defined.

(** X24. [stopSuggestionStream()] called in the task of a
    [startSuggestionStream], before the stream has been attached, does
    not stop it.  When the task ends the new stream is open and the
    manager holds it, with its handlers and its timer; the registry is
    empty, so its messages reach no callback.  So in both classes. *)
Theorem stop_before_attach_is_undone (i : Impl) (w : World) (t : string)
    (cb : Callback) :
  jobs w = [] →
  (∀ x, eventSource w = Some x → (x < length (heap w))%nat) →
  let w' := run i [CallStart t cb true; CallStop; EndOfTask] w in
  let h := length (heap w) in
  eventSource w' = Some h
  ∧ heap w' !! h = Some {| es_thread := t; es_closed := false;
                           es_onmessage := Some t; es_onerror := true |}
  ∧ suggestionCallbacks w' = ∅
  ∧ (now w + 15000) ∈ timers w'
  ∧ ∀ p, trace (step i (Message h p) w') = trace w.
Proof.
  intros Hq Hvalid w' h.
  set (hp := match eventSource w with
             | Some x => alter close_obj x (heap w)
             | None => heap w
             end).
  assert (length hp = h) as Hhp.
  { subst hp h. destruct (eventSource w); rewrite ?length_alter; reflexivity. }
  set (fresh := {| es_thread := t; es_closed := false;
                   es_onmessage := None; es_onerror := false |}).
  assert (match eventSource w with
          | Some x => alter close_obj x (hp ++ [fresh])
          | None => hp ++ [fresh]
          end = hp ++ [fresh]) as Hkept.
  { destruct (eventSource w) as [x|] eqn:Hes; [|reflexivity].
    specialize (Hvalid x eq_refl).
    rewrite alter_app_l by (rewrite Hhp; exact Hvalid).
    f_equal. subst hp. apply close_twice. }
  assert (eventSource w' = Some h
          ∧ heap w' = alter (handlers_obj t) h (hp ++ [fresh])
          ∧ suggestionCallbacks w' = ∅
          ∧ timers w' = timers w ++ [now w + 15000]
          ∧ jobs w' = []
          ∧ trace w' = trace w) as (Hes & Hheap & Hcbs & Htm & Hjobs & Htr).
  { subst w'.
    change (run i [CallStart t cb true; CallStop; EndOfTask] w)
      with (checkpoint (step i CallStop (step i (CallStart t cb true) w))).
    rewrite step_stop, step_start.
    destruct i; cbn [job_of].
    - erewrite checkpoint_cons;
        [|unfold stopped, requested; cbn [jobs]; rewrite Hq; reflexivity].
      rewrite checkpoint_nil by reflexivity.
      cbn. fold hp fresh. rewrite Hkept, Hhp. repeat split; reflexivity.
    - erewrite checkpoint_cons;
        [|unfold stopped, requested; cbn [jobs]; rewrite Hq; reflexivity].
      erewrite checkpoint_cons by reflexivity.
      rewrite checkpoint_nil by reflexivity.
      cbn. fold hp fresh. rewrite Hkept, Hhp. repeat split; reflexivity. }
  split; [exact Hes|]. split.
  - rewrite Hheap, <- Hhp, list_lookup_alter_eq.
    rewrite lookup_app_r by reflexivity. now rewrite Nat.sub_diag.
  - split; [exact Hcbs|]. split.
    + rewrite Htm. apply elem_of_app. right. now left.
    + intros p.
      destruct (step_silent i (Message h p) w' I Hcbs) as [_ ->]. exact Htr.
Qed.

Lemma stop_before_attach_is_undone_witness :
  let w' := run frontend [CallStart "t1" cb1 true; CallStop; EndOfTask] init in
  eventSource w' = Some 0%nat
  ∧ suggestionCallbacks w' = ∅
  ∧ trace (step frontend (Message 0%nat (Parsed update_ab)) w') = [].
Proof.
  cbv zeta.
  destruct (stop_before_attach_is_undone frontend init "t1" cb1 eq_refl)
    as (H1 & _ & H3 & _ & H5).
  { intros x Hx. discriminate Hx. }
  split; [exact H1|]. split; [exact H3|apply H5].
Defined.

(** * The mobile client: storage and requests *)

Lemma str_or_empty_cases (o : option string) :
  (String.eqb (str_or o "") "" = true ∧ str_truthy o = None)
  ∨ (∃ s, o = Some s ∧ String.eqb s "" = false
          ∧ String.eqb (str_or o "") "" = false).
Proof.
  destruct o as [s|]; [|now left]. unfold str_truthy, str_or.
  destruct (String.eqb s "") eqn:Hs; [now left|].
  right. exists s. now rewrite Hs.
Qed.

Lemma seed_storage_tenant (envTenant envKey : option string)
    (storage : gmap string string) :
  seed_storage envTenant envKey storage !! "tenantId"
  = if String.eqb (str_or (storage !! "tenantId") "") ""
    then Some (str_or envTenant "default") else storage !! "tenantId".
Proof.
  unfold seed_storage.
  destruct (String.eqb (str_or (storage !! "apiKey") "") "");
    destruct (String.eqb (str_or (storage !! "tenantId") "") "");
    rewrite ?lookup_insert_ne by discriminate;
    now rewrite ?lookup_insert_eq.
Qed.

Lemma seed_storage_key (envTenant envKey : option string)
    (storage : gmap string string) :
  seed_storage envTenant envKey storage !! "apiKey"
  = if String.eqb (str_or (storage !! "apiKey") "") ""
    then Some (str_or envKey "") else storage !! "apiKey".
Proof.
  unfold seed_storage.
  destruct (String.eqb (str_or (storage !! "apiKey") "") "");
    destruct (String.eqb (str_or (storage !! "tenantId") "") "");
    rewrite ?lookup_insert_eq, ?lookup_insert_ne by discriminate;
    reflexivity.
Qed.

Lemma seeded_tenant_header (envTenant stored : option string) :
  str_truthy stored = None →
  str_or (opt_or (str_truthy (Some (str_or envTenant "default")))
            (str_truthy envTenant)) "default"
  = str_or (opt_or (str_truthy stored) (str_truthy envTenant)) "default".
Proof.
  intros ->. unfold opt_or, str_truthy, str_or.
  destruct envTenant as [e|]; [|reflexivity].
  destruct (String.eqb e "") eqn:He; cbn; rewrite ?He; cbn; rewrite ?He;
    reflexivity.
Qed.

Lemma seeded_key_header (envKey stored : option string) :
  str_truthy stored = None →
  opt_or (Some (str_or envKey "")) (str_truthy envKey)
  = opt_or stored (str_truthy envKey).
Proof.
  intros Hs. unfold opt_or. rewrite Hs. unfold str_truthy, str_or.
  destruct envKey as [e|]; [|reflexivity].
  destruct (String.eqb e "") eqn:He; cbn; rewrite ?He; reflexivity.
Qed.

(** X25. Seeding the storage as the mobile app does on start changes no
    request: with the same environment the interceptor sends the same
    headers from the seeded storage as from the storage before.  After
    seeding the tenant id in storage is not empty, and seeding again
    changes nothing. *)
Theorem seeding_changes_no_request (toLowerCase : string → string)
    (envTenant envKey : option string) (storage : gmap string string)
    (time : N) (config : RequestConfig) :
  mobile_request toLowerCase (seed_storage envTenant envKey storage)
    envTenant envKey time config
  = mobile_request toLowerCase storage envTenant envKey time config
  ∧ (∃ tenant, seed_storage envTenant envKey storage !! "tenantId" = Some tenant
               ∧ tenant ≠ "")
  ∧ seed_storage envTenant envKey (seed_storage envTenant envKey storage)
    = seed_storage envTenant envKey storage.
Proof.
  destruct (str_or_truthy envTenant "default") as [Hdef _]; [discriminate|].
  apply String.eqb_neq in Hdef as Hdef'.
  split; [|split].
  - unfold mobile_request.
    rewrite seed_storage_tenant, seed_storage_key.
    destruct (str_or_empty_cases (storage !! "tenantId"))
      as [[-> Ht]|(tn & Hts & Htn & ->)];
    destruct (str_or_empty_cases (storage !! "apiKey"))
      as [[-> Hk]|(ky & Hks & Hkn & ->)];
    rewrite ?(seeded_tenant_header envTenant _ Ht),
            ?(seeded_key_header envKey _ Hk); reflexivity.
  - rewrite seed_storage_tenant.
    destruct (str_or_empty_cases (storage !! "tenantId"))
      as [[-> _]|(tn & Hts & Htn & ->)].
    + exists (str_or envTenant "default"). now apply String.eqb_neq in Hdef'.
    + exists tn. split; [exact Hts|]. now apply String.eqb_neq.
  - unfold seed_storage at 1.
    rewrite seed_storage_tenant, seed_storage_key.
    destruct (str_or_empty_cases (storage !! "tenantId"))
      as [[Ht _]|(tn & Hts & Htn & Ht)]; rewrite Ht;
    destruct (str_or_empty_cases (storage !! "apiKey"))
      as [[Hk _]|(ky & Hks & Hkn & Hk)]; rewrite Hk;
    cbn [str_or]; rewrite ?Hdef', ?Hts, ?Hks; cbn [str_or];
    rewrite ?Htn, ?Hkn, ?Hdef'; cbn [String.eqb];
    try reflexivity.
    + destruct (String.eqb (str_or envKey "") "") eqn:He; cbn [String.eqb];
        rewrite ?He; [|reflexivity].
      unfold seed_storage. rewrite Ht, Hk. now rewrite insert_insert_eq.
    + destruct (String.eqb (str_or envKey "") "") eqn:He; cbn [String.eqb];
        rewrite ?He; [|reflexivity].
      unfold seed_storage. rewrite Ht, Hk. now rewrite insert_insert_eq.
Qed.
